(** * Cross-lingual idiom similarity: scoring, ranking and statistics

    A shallow embedding of the scoring and ranking engine of the idiom
    pipeline ([analyze_improved_similarity.py],
    [analyze_finnish_japanese_similarity.py],
    [analyze_cross_lingual_similarity.py],
    [similarity/semantic_matcher.py] and the statistics of
    [test_cross_lingual_matching.py]) together with the properties its
    specification states about it and further properties of the code.

    Conventions of the embedding:
    - a Python [str] is a sequence of Unicode code points. The tokenizer
      is written over any type of characters ([Unicode]), with the regex
      class [\w] and [str.lower], which the Unicode character database
      defines, as parameters. The scorer and the loops carry their idioms
      as [string]s, that is as ASCII text, on which [str.lower] maps
      [A-Z] to [a-z] and [\w] is [[A-Za-z0-9_]]: their tokenizer is the
      general one at these two tables;
    - a Python [float] is an exact rational [Q]; Python's [==] on numbers
      is [Qeq], and [<], [>], [>=] are the rational order; the boundary
      values of the penalty are checked in binary64 as well;
    - a Python [set] of strings is a [gset string], a [dict] keyed by
      strings is a [gmap string _];
    - an exception is a [Raise] in the [result] monad;
    - the entries of the matrices returned by [cosine_similarity] are
      given as total functions from a row and a column index to a score:
      the encoder and the matrix builder are external to the repository.
      Where a function is modelled from its call of [cosine_similarity]
      on, the matrix carries its shape, and the call fails on an array
      without rows as the input validation of scikit-learn does. *)

From Stdlib Require Import ZArith QArith Qminmax Lqa Lia.
From Stdlib Require Import Ascii String Floats.
From stdpp Require Import base gmap sets list sorting strings.

Local Open Scope Q_scope.

(** ** Python exceptions as results *)

Inductive py_error : Set :=
| IndexError
| ValueError
| ZeroDivisionError.

Inductive result (A : Type) : Type :=
| Ok (a : A)
| Raise (e : py_error).

Arguments Ok {A} a.
Arguments Raise {A} e.

Definition result_bind {A B : Type} (f : A -> result B) (r : result A) : result B :=
  match r with
  | Ok a => f a
  | Raise e => Raise e
  end.

#[global] Instance result_mret : MRet result := fun A a => Ok a.
#[global] Instance result_mbind : MBind result := fun A B f r => result_bind f r.

(** [for x in xs: state = body(x, state)], stopping at the first exception. *)
Fixpoint for_each {X S : Type} (xs : list X) (body : X -> S -> result S) (s : S)
  : result S :=
  match xs with
  | [] => Ok s
  | x :: xs' =>
      match body x s with
      | Ok s' => for_each xs' body s'
      | Raise e => Raise e
      end
  end.

(** [range(n)]. *)
Definition range (n : nat) : list nat := seq 0 n.

(** [l[i]] for a Python integer [i]: negative indices count from the end,
    anything outside [-len(l) .. len(l)-1] raises [IndexError]. *)
Definition py_index {A : Type} (l : list A) (i : Z) : result A :=
  let n := Z.of_nat (length l) in
  let j := if (i <? 0)%Z then (n + i)%Z else i in
  if ((0 <=? j)%Z && (j <? n)%Z)%bool then
    match l !! Z.to_nat j with
    | Some a => Ok a
    | None => Raise IndexError
    end
  else Raise IndexError.

(** [l[0] if l else ''] *)
Definition first_or_empty (l : list string) : string :=
  match l with
  | [] => EmptyString
  | x :: _ => x
  end.

(** ** Numbers *)

(** [float(n)] for a length. *)
Definition Qnat (n : nat) : Q := inject_Z (Z.of_nat n).

(** [x > y] and [x >= y] on floats. *)
Definition Qgtb (x y : Q) : bool := negb (Qle_bool x y).
Definition Qgeb (x y : Q) : bool := Qle_bool y x.

(** ** Sorting

    [sorted(l, key=key, reverse=True)] is a stable sort into descending key
    order: elements with equal keys keep their input order. *)

Fixpoint insert_desc {A : Type} (key : A -> Q) (x : A) (l : list A) : list A :=
  match l with
  | [] => [x]
  | y :: l' =>
      if Qgtb (key y) (key x) then y :: insert_desc key x l'
      else x :: y :: l'
  end.

Definition sorted_reverse {A : Type} (key : A -> Q) (l : list A) : list A :=
  foldr (insert_desc key) [] l.

(** Ascending stable insertion, used for [np.argsort] and [np.median]. *)
Fixpoint insert_asc {A : Type} (key : A -> Q) (x : A) (l : list A) : list A :=
  match l with
  | [] => [x]
  | y :: l' =>
      if Qgtb (key x) (key y) then y :: insert_asc key x l'
      else x :: y :: l'
  end.

Definition sorted_asc {A : Type} (key : A -> Q) (l : list A) : list A :=
  foldr (insert_asc key) [] l.

(** [enumerate(l)] *)
Definition enumerate {A : Type} (l : list A) : list (nat * A) :=
  zip (seq 0 (length l)) l.

(** ** Idiom collections *)

(** An entry of [en_idioms] / [target_idioms]: the keys ['idiom'],
    ['contexts'] and ['english_translations']. *)
Record idiom_data : Type := {
  idiom : string;
  contexts : list string;
  english_translations : list string
}.

(** ** The numpy and Python primitives the statistics use *)

(** A numpy float result: [nan] and [inf] come with a RuntimeWarning, not
    with an exception. *)
Inductive np_float : Type :=
| NaN
| Inf
| Fin (q : Q).

Definition Qsum (l : list Q) : Q := foldr Qplus 0 l.

(** [np.mean(l)]: [nan] on an empty sequence. *)
Definition np_mean (l : list Q) : np_float :=
  match l with
  | [] => NaN
  | _ :: _ => Fin (Qsum l / Qnat (length l))
  end.

(** [np.median(l)]: [nan] on an empty sequence, the middle element of the
    sorted sequence, or the mean of the two middle elements. *)
Definition np_median (l : list Q) : np_float :=
  match l with
  | [] => NaN
  | _ :: _ =>
      let s := sorted_asc id l in
      let n := length l in
      if Nat.even n then Fin ((nth (n / 2 - 1) s 0 + nth (n / 2) s 0) / 2)
      else Fin (nth (n / 2) s 0)
  end.

(** [np.min(l)] and [np.max(l)]: a zero-size array has no minimum, numpy
    raises [ValueError]. *)
Definition np_min (l : list Q) : result Q :=
  match l with
  | [] => Raise ValueError
  | x :: l' => Ok (foldl Qmin x l')
  end.

Definition np_max (l : list Q) : result Q :=
  match l with
  | [] => Raise ValueError
  | x :: l' => Ok (foldl Qmax x l')
  end.

(** [np.argmax(l)]: the first index of the maximum; [ValueError] on an
    empty sequence. *)
Fixpoint argmax_from (best_idx : nat) (best : Q) (i : nat) (l : list Q) : nat :=
  match l with
  | [] => best_idx
  | x :: l' =>
      if Qgtb x best then argmax_from i x (S i) l'
      else argmax_from best_idx best (S i) l'
  end.

Definition np_argmax (l : list Q) : result nat :=
  match l with
  | [] => Raise ValueError
  | x :: l' => Ok (argmax_from 0 x 1 l')
  end.

(** [np.argsort(l)]: the indices of [l] in ascending order of value. numpy
    leaves the order of equal values to its sorting algorithm; the model
    keeps them in index order. *)
Definition np_argsort (l : list Q) : list nat :=
  fst <$> sorted_asc snd (enumerate l).

(** [np.sum(all_sims >= thresh)] and [sum(1 for s in l if s >= thresh)] *)
Definition count_ge (l : list Q) (thresh : Q) : nat :=
  length (filter (fun s => Qgeb s thresh = true) l).

(** [count / n] on Python integers: [ZeroDivisionError] when [n] is 0. *)
Definition py_truediv (count n : nat) : result Q :=
  match n with
  | O => Raise ZeroDivisionError
  | S _ => Ok (Qnat count / Qnat n)
  end.

(** [x / n] for a float [x] and a Python integer [n]:
    [ZeroDivisionError] when [n] is 0. *)
Definition py_truediv_Q (x : Q) (n : nat) : result Q :=
  match n with
  | O => Raise ZeroDivisionError
  | S _ => Ok (x / Qnat n)
  end.

(** [count / n] when [count] is a numpy integer: no exception, [nan] for
    [0 / 0] and [inf] for a positive count over 0. *)
Definition np_truediv (count n : nat) : np_float :=
  match n, count with
  | O, O => NaN
  | O, S _ => Inf
  | S _, _ => Fin (Qnat count / Qnat n)
  end.

Definition np_scale (x : np_float) (k : Q) : np_float :=
  match x with
  | Fin q => Fin (q * k)
  | other => other
  end.

(** The builtins [max(l)] and [min(l)]: ValueError on an empty
    sequence. *)
Definition py_max (l : list Q) : result Q :=
  match l with
  | [] => Raise ValueError
  | x :: l' => Ok (foldl Qmax x l')
  end.

Definition py_min (l : list Q) : result Q :=
  match l with
  | [] => Raise ValueError
  | x :: l' => Ok (foldl Qmin x l')
  end.

(** [np.std(l)]: the square root of the mean squared deviation; [nan] on
    an empty sequence. The square root is the floating-point routine of
    the platform, taken as given. *)
Definition np_std (sqrt : Q -> Q) (l : list Q) : np_float :=
  match l with
  | [] => NaN
  | _ :: _ =>
      let m := Qsum l / Qnat (length l) in
      Fin (sqrt (Qsum ((fun x => (x - m) * (x - m)) <$> l) / Qnat (length l)))
  end.

(** [sep.join(l)] *)
Fixpoint join (sep : string) (l : list string) : string :=
  match l with
  | [] => EmptyString
  | x :: l' =>
      match l' with
      | [] => x
      | _ :: _ => (x ++ sep ++ join sep l')%string
      end
  end.

(** ** Similarity matrices *)

(** A two-dimensional numpy array of scores: its shape and its entries. *)
Record matrix : Type := {
  n_rows : nat;
  n_cols : nat;
  entries : nat -> nat -> Q
}.

(** [m[i, j]] for two indices that are not negative: [IndexError] outside
    the shape. *)
Definition matrix_index (m : matrix) (i j : nat) : result Q :=
  if ((i <? n_rows m)%nat && (j <? n_cols m)%nat)%bool then Ok (entries m i j)
  else Raise IndexError.

(** [m[i]]: row [i]. *)
Definition matrix_row (m : matrix) (i : nat) : result (list Q) :=
  if (i <? n_rows m)%nat then Ok (entries m i <$> range (n_cols m))
  else Raise IndexError.

(** [m[:, j]]: column [j], one entry per row of the matrix. *)
Definition matrix_column (m : matrix) (j : nat) : result (list Q) :=
  if (j <? n_cols m)%nat then Ok ((fun i => entries m i j) <$> range (n_rows m))
  else Raise IndexError.

(** [m.flatten()]: the entries row by row. *)
Definition matrix_flatten (m : matrix) : list Q :=
  i ← range (n_rows m); entries m i <$> range (n_cols m).

(** [cosine_similarity(X, Y)] of scikit-learn, for an array [X] of [n_X]
    embeddings and an array [Y] of [n_Y] embeddings of the same width. Its
    input validation refuses an array without rows with [ValueError];
    otherwise it returns a matrix of [n_X] rows and [n_Y] columns. The
    entries are computed outside this code: [cosine i j] stands for the
    cosine similarity of row [i] of [X] and row [j] of [Y]. *)
Definition cosine_similarity (n_X n_Y : nat) (cosine : nat -> nat -> Q)
  : result matrix :=
  if ((n_X =? 0)%nat || (n_Y =? 0)%nat)%bool then Raise ValueError
  else Ok {| n_rows := n_X; n_cols := n_Y; entries := cosine |}.

(** ** Text: the tokenizer over Unicode

    [get_tokens] and [calculate_lexical_overlap] of
    [analyze_improved_similarity.py] over texts of any alphabet. A Python
    [str] is a sequence of code points; which of them the [re] module
    counts as word characters (the class [\w]: the alphanumeric characters
    of the Unicode database, and the underscore) and what [str.lower]
    makes of a text is laid down by that database, not by this code, so
    both are parameters here. *)

Module Unicode.

Section tokenizer.

Context {char : Type} `{Countable char}.

(** [\w] on one character, and [text.lower()]. *)
Variable is_word_char : char -> bool.
Variable lower : list char -> list char.

(** What a finished run of word characters contributes to the matches. *)
Definition emit (cur : list char) : list (list char) :=
  match cur with
  | [] => []
  | _ :: _ => [cur]
  end.

(** [re.findall(r'\b\w+\b', text)], scanning left to right. [\w+] is
    greedy and a word boundary never lies between two word characters, so
    every match is a whole run of word characters: [cur] is the run being
    read, emitted when a non-word character or the end of the text closes
    it. *)
Fixpoint findall_words (cur text : list char) : list (list char) :=
  match text with
  | [] => emit cur
  | c :: rest =>
      if is_word_char c then findall_words (cur ++ [c]) rest
      else emit cur ++ findall_words [] rest
  end.

Definition get_tokens (text : list char) : gset (list char) :=
  let text := lower text in
  let tokens := findall_words [] text in
  list_to_set tokens.

(** [bool(s)] for a set: true iff non-empty. *)
Definition truthy_set (s : gset (list char)) : bool := negb (bool_decide (s = ∅)).

Definition calculate_lexical_overlap (idiom1 idiom2 : list char) : Q :=
  let tokens1 := get_tokens idiom1 in
  let tokens2 := get_tokens idiom2 in
  if (negb (truthy_set tokens1) || negb (truthy_set tokens2))%bool then 0
  else
    let shared := tokens1 ∩ tokens2 in
    let total := tokens1 ∪ tokens2 in
    if truthy_set total then Qnat (size shared) / Qnat (size total) else 0.

End tokenizer.

End Unicode.

(** ** analyze_improved_similarity.py *)

Module Improved.

(** *** Lexical overlap ([get_tokens], [calculate_lexical_overlap]) on
    ASCII text

    The idioms of this model are [string]s, sequences of ASCII
    characters. On these the class [\w] is [[A-Za-z0-9_]] and [str.lower]
    maps [A-Z] to [a-z]; the tokenizer below is [Unicode.get_tokens] at
    these two tables. *)

Definition is_upper (c : ascii) : bool :=
  let n := nat_of_ascii c in ((65 <=? n)%nat && (n <=? 90)%nat)%bool.

Definition is_lower (c : ascii) : bool :=
  let n := nat_of_ascii c in ((97 <=? n)%nat && (n <=? 122)%nat)%bool.

Definition is_digit (c : ascii) : bool :=
  let n := nat_of_ascii c in ((48 <=? n)%nat && (n <=? 57)%nat)%bool.

(** The regex class [\w]: letters, digits and the underscore. *)
Definition is_word_char (c : ascii) : bool :=
  (is_upper c || is_lower c || is_digit c || (nat_of_ascii c =? 95)%nat)%bool.

Definition lower_char (c : ascii) : ascii :=
  if is_upper c then ascii_of_nat (nat_of_ascii c + 32) else c.

(** [text.lower()] *)
Definition lower (text : string) : string :=
  string_of_list_ascii (lower_char <$> list_ascii_of_string text).

(** What a finished run of word characters contributes to the matches. *)
Definition emit (cur : list ascii) : list (list ascii) :=
  match cur with
  | [] => []
  | _ :: _ => [cur]
  end.

(** [re.findall(r'\b\w+\b', text)], scanning left to right. [\w+] is
    greedy and a word boundary never lies between two word characters, so
    every match is a whole run of word characters: [cur] is the run being
    read, emitted when a non-word character or the end of the text closes
    it. *)
Fixpoint findall_words (cur text : list ascii) : list (list ascii) :=
  match text with
  | [] => emit cur
  | c :: rest =>
      if is_word_char c then findall_words (cur ++ [c]) rest
      else emit cur ++ findall_words [] rest
  end.

Definition get_tokens (text : string) : gset string :=
  let text := lower text in
  let tokens := string_of_list_ascii <$> findall_words [] (list_ascii_of_string text) in
  list_to_set tokens.

(** [bool(s)] for a set: true iff non-empty. *)
Definition truthy_set (s : gset string) : bool := negb (bool_decide (s = ∅)).

Definition calculate_lexical_overlap (idiom1 idiom2 : string) : Q :=
  let tokens1 := get_tokens idiom1 in
  let tokens2 := get_tokens idiom2 in
  if (negb (truthy_set tokens1) || negb (truthy_set tokens2))%bool then 0
  else
    let shared := tokens1 ∩ tokens2 in
    let total := tokens1 ∪ tokens2 in
    if truthy_set total then Qnat (size shared) / Qnat (size total) else 0.

(** ** Weighted scorer ([compute_weighted_similarity]) *)

(** The base weighted score, before any penalty. *)
Definition base_score (idiom_weight context_weight idiom_only_sim context_sim : Q) : Q :=
  (idiom_weight * idiom_only_sim) + (context_weight * context_sim).

Definition compute_weighted_similarity
    (idiom_only_sim context_sim : Q) (idiom1 idiom2 : string)
    (idiom_weight context_weight : Q) (lexical_penalty : bool) : Q :=
  let weighted_score := base_score idiom_weight context_weight idiom_only_sim context_sim in
  if lexical_penalty then
    let overlap := calculate_lexical_overlap idiom1 idiom2 in
    if (Qgtb overlap 0.3 && Qgtb weighted_score 0.6)%bool then
      let penalty_factor := 1 - (overlap * 0.5) in
      weighted_score * penalty_factor
    else weighted_score
  else weighted_score.

(** *** Records *)

(** The dictionaries appended to [all_matches]; the key [f'{lang_code}_idiom']
    is [lang_idiom], [f'{lang_code}_context'] is [lang_context]. *)
Module MatchRecord.
Record t : Type := {
  english_idiom : string;
  english_context : string;
  lang_idiom : string;
  lang_context : string;
  english_translation : string;
  weighted_similarity : Q;
  idiom_only_similarity : Q;
  context_similarity : Q;
  lexical_overlap : Q
}.
End MatchRecord.

(** The dictionaries appended to [target_best_matches]. *)
Module BestMatch.
Record t : Type := {
  lang_idiom : string;
  lang_context : string;
  english_translation : string;
  best_english_match : string;
  english_context : string;
  weighted_similarity : Q;
  idiom_only_similarity : Q;
  context_similarity : Q;
  lexical_overlap : Q
}.
End BestMatch.

(** *** Mode A: all pairs above the threshold (lines 121-158) *)

Section analyze_language_pair.

Variables en_idioms target_idioms : list idiom_data.
Variables idiom_only_sims context_sims : nat -> nat -> Q.
Variables min_threshold idiom_weight context_weight : Q.

(** The body of the inner loop for the pair [(en_idx, tgt_idx)]. *)
Definition all_matches_step (en_idx : nat) (en_idiom : string) (tgt_idx : nat)
    (all_matches : list MatchRecord.t) : result (list MatchRecord.t) :=
  tgt ← py_index target_idioms (Z.of_nat tgt_idx);
  let tgt_idiom := idiom tgt in
  let idiom_sim := idiom_only_sims en_idx tgt_idx in
  let context_sim := context_sims en_idx tgt_idx in
  let weighted_sim :=
    compute_weighted_similarity idiom_sim context_sim en_idiom tgt_idiom
      idiom_weight context_weight true in
  if Qgeb weighted_sim min_threshold then
    let lexical_overlap := calculate_lexical_overlap en_idiom tgt_idiom in
    en ← py_index en_idioms (Z.of_nat en_idx);
    Ok (all_matches ++ [
      {| MatchRecord.english_idiom := en_idiom;
         MatchRecord.english_context := first_or_empty (contexts en);
         MatchRecord.lang_idiom := tgt_idiom;
         MatchRecord.lang_context := first_or_empty (contexts tgt);
         MatchRecord.english_translation := first_or_empty (english_translations tgt);
         MatchRecord.weighted_similarity := weighted_sim;
         MatchRecord.idiom_only_similarity := idiom_sim;
         MatchRecord.context_similarity := context_sim;
         MatchRecord.lexical_overlap := lexical_overlap |} ])
  else Ok all_matches.

Definition all_matches_loop : result (list MatchRecord.t) :=
  for_each (range (length en_idioms)) (fun en_idx all_matches =>
    en ← py_index en_idioms (Z.of_nat en_idx);
    let en_idiom := idiom en in
    for_each (range (length target_idioms))
      (all_matches_step en_idx en_idiom) all_matches) [].

(** [sorted(all_matches, key=lambda x: x['weighted_similarity'], reverse=True)] *)
Definition sort_matches (all_matches : list MatchRecord.t) : list MatchRecord.t :=
  sorted_reverse MatchRecord.weighted_similarity all_matches.

(** What [json.dump(all_matches_sorted[:100], ...)] and
    [writer.writerows(all_matches_sorted[:100])] write. *)
Definition persisted (all_matches_sorted : list MatchRecord.t) : list MatchRecord.t :=
  take 100 all_matches_sorted.

(** [weighted_scores = [m['weighted_similarity'] for m in all_matches_sorted]] *)
Definition weighted_scores (all_matches_sorted : list MatchRecord.t) : list Q :=
  MatchRecord.weighted_similarity <$> all_matches_sorted.

(** *** Mode B: best English match per target idiom (lines 197-241) *)

(** [(best_score, best_en_idx, best_idiom_sim, best_context_sim)] *)
Definition best_state : Type := Q * Z * Q * Q.

Definition best_step (tgt_idx : nat) (tgt_idiom : string) (en_idx : nat)
    (st : best_state) : result best_state :=
  let '(best_score, best_en_idx, best_idiom_sim, best_context_sim) := st in
  en ← py_index en_idioms (Z.of_nat en_idx);
  let en_idiom := idiom en in
  let idiom_sim := idiom_only_sims en_idx tgt_idx in
  let context_sim := context_sims en_idx tgt_idx in
  let weighted_sim :=
    compute_weighted_similarity idiom_sim context_sim en_idiom tgt_idiom
      idiom_weight context_weight true in
  if Qgtb weighted_sim best_score then
    Ok (weighted_sim, Z.of_nat en_idx, idiom_sim, context_sim)
  else Ok st.

(** The scan of all source idioms for one target idiom, from the initial
    [best_score = -1], [best_en_idx = -1], [best_idiom_sim = 0],
    [best_context_sim = 0]. *)
Definition best_scan (tgt_idx : nat) (tgt_idiom : string) : result best_state :=
  for_each (range (length en_idioms)) (best_step tgt_idx tgt_idiom)
    (-1, (-1)%Z, 0, 0).

Definition target_best_step (entry : nat * idiom_data)
    (target_best_matches : list BestMatch.t) : result (list BestMatch.t) :=
  let '(tgt_idx, tgt_idiom_data) := entry in
  let tgt_idiom := idiom tgt_idiom_data in
  st ← best_scan tgt_idx tgt_idiom;
  let '(best_score, best_en_idx, best_idiom_sim, best_context_sim) := st in
  best_en ← py_index en_idioms best_en_idx;
  let lexical_overlap := calculate_lexical_overlap (idiom best_en) tgt_idiom in
  Ok (target_best_matches ++ [
    {| BestMatch.lang_idiom := tgt_idiom;
       BestMatch.lang_context := first_or_empty (contexts tgt_idiom_data);
       BestMatch.english_translation :=
         first_or_empty (english_translations tgt_idiom_data);
       BestMatch.best_english_match := idiom best_en;
       BestMatch.english_context := first_or_empty (contexts best_en);
       BestMatch.weighted_similarity := best_score;
       BestMatch.idiom_only_similarity := best_idiom_sim;
       BestMatch.context_similarity := best_context_sim;
       BestMatch.lexical_overlap := lexical_overlap |} ]).

Definition target_best_matches_loop : result (list BestMatch.t) :=
  for_each (enumerate target_idioms) target_best_step [].

Definition sort_best_matches (l : list BestMatch.t) : list BestMatch.t :=
  sorted_reverse BestMatch.weighted_similarity l.

(** *** Quality metrics (lines 261-300) *)

(** What the block guarded by [if weighted_scores:] prints. *)
Record threshold_metrics : Type := {
  tm_count : nat;
  tm_weighted : np_float * np_float;
  tm_idiom_only : np_float * np_float;
  tm_context : np_float * np_float;
  tm_overlap : np_float * np_float;
  tm_high_overlap : nat
}.

Definition mean_median (l : list Q) : np_float * np_float :=
  (np_mean l, np_median l).

Definition threshold_statistics (all_matches_sorted : list MatchRecord.t)
  : option threshold_metrics :=
  let weighted_scores := weighted_scores all_matches_sorted in
  let idiom_scores := MatchRecord.idiom_only_similarity <$> all_matches_sorted in
  let context_scores := MatchRecord.context_similarity <$> all_matches_sorted in
  let overlaps := MatchRecord.lexical_overlap <$> all_matches_sorted in
  match weighted_scores with
  | [] => None
  | _ :: _ =>
      let high_overlap :=
        filter (fun m => Qgtb (MatchRecord.lexical_overlap m) 0.4 = true)
          all_matches_sorted in
      Some {| tm_count := length weighted_scores;
              tm_weighted := mean_median weighted_scores;
              tm_idiom_only := mean_median idiom_scores;
              tm_context := mean_median context_scores;
              tm_overlap := mean_median overlaps;
              tm_high_overlap := length high_overlap |}
  end.

Definition thresholds : list Q := [0.5; 0.6; 0.7; 0.8; 0.9].

(** The loop over [thresholds] (lines 296-300): one line
    [(thresh, count, pct)] per threshold. *)
Definition best_distribution (best_weighted : list Q)
  : result (list (Q * nat * Q)) :=
  for_each thresholds (fun thresh lines =>
    let count := count_ge best_weighted thresh in
    q ← py_truediv count (length best_weighted);
    let pct := q * 100 in
    Ok (lines ++ [(thresh, count, pct)])) [].

Record best_metrics : Type := {
  bm_mean : np_float;
  bm_median : np_float;
  bm_min : Q;
  bm_max : Q;
  bm_distribution : list (Q * nat * Q)
}.

(** The best-match statistics (lines 285-300), in the order the source
    evaluates them. *)
Definition best_match_statistics (target_best_matches_sorted : list BestMatch.t)
  : result best_metrics :=
  let best_weighted := BestMatch.weighted_similarity <$> target_best_matches_sorted in
  let mean := np_mean best_weighted in
  let median := np_median best_weighted in
  mn ← np_min best_weighted;
  mx ← np_max best_weighted;
  distribution ← best_distribution best_weighted;
  Ok {| bm_mean := mean; bm_median := median; bm_min := mn; bm_max := mx;
        bm_distribution := distribution |}.

(** *** The whole of [analyze_language_pair] *)

Record analysis : Type := {
  matches_json : list MatchRecord.t;
  matches_csv : option (list MatchRecord.t);
  best_matches_json : list BestMatch.t;
  printed_threshold_metrics : option threshold_metrics;
  printed_best_metrics : best_metrics;
  returned : nat * list BestMatch.t
}.

Definition analyze_language_pair : result analysis :=
  all_matches ← all_matches_loop;
  let all_matches_sorted := sort_matches all_matches in
  let csv :=
    match all_matches_sorted with
    | [] => None
    | _ :: _ => Some (persisted all_matches_sorted)
    end in
  target_best_matches ← target_best_matches_loop;
  let target_best_matches_sorted := sort_best_matches target_best_matches in
  let metrics := threshold_statistics all_matches_sorted in
  best ← best_match_statistics target_best_matches_sorted;
  Ok {| matches_json := persisted all_matches_sorted;
        matches_csv := csv;
        best_matches_json := target_best_matches_sorted;
        printed_threshold_metrics := metrics;
        printed_best_metrics := best;
        returned := (length all_matches_sorted, target_best_matches_sorted) |}.

End analyze_language_pair.

End Improved.

(** ** analyze_finnish_japanese_similarity.py *)

Module FinnishJapanese.

Module BestMatch.
Record t : Type := {
  lang_idiom : string;
  lang_context : string;
  english_translation : string;
  best_english_match : string;
  english_context : string;
  similarity : Q
}.
End BestMatch.

Section analyze_language_pair.

Variables en_idioms target_idioms : list idiom_data.
Variable similarities : nat -> nat -> Q.

(** [similarities[:, tgt_idx]] for a matrix that holds one row per English
    idiom, given by its entries. *)
Definition column (tgt_idx : nat) : list Q :=
  (fun en_idx => similarities en_idx tgt_idx) <$> range (length en_idioms).

(** The body of the best-match loop (lines 92-107). *)
Definition target_best_step (entry : nat * idiom_data)
    (target_best_matches : list BestMatch.t) : result (list BestMatch.t) :=
  let '(tgt_idx, tgt_idiom) := entry in
  let sims := column tgt_idx in
  best_en_idx ← np_argmax sims;
  best_sim ← py_index sims (Z.of_nat best_en_idx);
  best_en ← py_index en_idioms (Z.of_nat best_en_idx);
  Ok (target_best_matches ++ [
    {| BestMatch.lang_idiom := idiom tgt_idiom;
       BestMatch.lang_context := first_or_empty (contexts tgt_idiom);
       BestMatch.english_translation := first_or_empty (english_translations tgt_idiom);
       BestMatch.best_english_match := idiom best_en;
       BestMatch.english_context := first_or_empty (contexts best_en);
       BestMatch.similarity := best_sim |} ]).

Definition target_best_matches_loop : result (list BestMatch.t) :=
  for_each (enumerate target_idioms) target_best_step [].

End analyze_language_pair.

(** *** The whole of [analyze_language_pair] *)

Module MatchRecord.
Record t : Type := {
  english_idiom : string;
  english_context : string;
  lang_idiom : string;
  lang_context : string;
  english_translation : string;
  similarity : Q
}.
End MatchRecord.

(** What the two statistics blocks print. *)
Record all_metrics : Type := {
  am_mean : np_float;
  am_median : np_float;
  am_std : np_float;
  am_min : Q;
  am_max : Q
}.

Record best_metrics : Type := {
  bm_mean : np_float;
  bm_median : np_float;
  bm_min : Q;
  bm_max : Q;
  bm_distribution : list (Q * nat * Q)
}.

Record analysis : Type := {
  matches_json : list MatchRecord.t;
  matches_csv_header : MatchRecord.t;
  matches_csv : list MatchRecord.t;
  best_matches_json : list BestMatch.t;
  printed_all_metrics : all_metrics;
  printed_best_metrics : best_metrics;
  returned : nat * list BestMatch.t
}.

Definition thresholds : list Q := [0.3; 0.4; 0.5; 0.6; 0.7; 0.8].

Section whole_analysis.

Variables en_idioms target_idioms : list idiom_data.
(** [en_embeddings] and [target_embeddings], through what the analysis
    reads of them: their numbers of rows, and the cosine similarity of
    row [i] of the first and row [j] of the second. *)
Variables en_rows target_rows : nat.
Variable cosine : nat -> nat -> Q.
Variable sqrt : Q -> Q.

(** The body of the all-pairs loop (lines 41-52): every pair is
    recorded, there is no threshold. *)
Definition all_matches_step (similarities : matrix) (en_idx tgt_idx : nat)
    (all_matches : list MatchRecord.t) : result (list MatchRecord.t) :=
  sim ← matrix_index similarities en_idx tgt_idx;
  en ← py_index en_idioms (Z.of_nat en_idx);
  tgt ← py_index target_idioms (Z.of_nat tgt_idx);
  Ok (all_matches ++ [
    {| MatchRecord.english_idiom := idiom en;
       MatchRecord.english_context := first_or_empty (contexts en);
       MatchRecord.lang_idiom := idiom tgt;
       MatchRecord.lang_context := first_or_empty (contexts tgt);
       MatchRecord.english_translation := first_or_empty (english_translations tgt);
       MatchRecord.similarity := sim |} ]).

Definition all_matches_loop (similarities : matrix) : result (list MatchRecord.t) :=
  for_each (range (length en_idioms)) (fun en_idx all_matches =>
    for_each (range (length target_idioms))
      (all_matches_step similarities en_idx) all_matches) [].

(** The body of the best-match loop (lines 92-107) over a matrix of any
    shape: the column sliced from the matrix holds one entry per row of
    the matrix. *)
Definition best_match_step (similarities : matrix) (entry : nat * idiom_data)
    (target_best_matches : list BestMatch.t) : result (list BestMatch.t) :=
  let '(tgt_idx, tgt_idiom) := entry in
  sims ← matrix_column similarities tgt_idx;
  best_en_idx ← np_argmax sims;
  best_sim ← py_index sims (Z.of_nat best_en_idx);
  best_en ← py_index en_idioms (Z.of_nat best_en_idx);
  Ok (target_best_matches ++ [
    {| BestMatch.lang_idiom := idiom tgt_idiom;
       BestMatch.lang_context := first_or_empty (contexts tgt_idiom);
       BestMatch.english_translation := first_or_empty (english_translations tgt_idiom);
       BestMatch.best_english_match := idiom best_en;
       BestMatch.english_context := first_or_empty (contexts best_en);
       BestMatch.similarity := best_sim |} ]).

Definition best_matches_loop (similarities : matrix) : result (list BestMatch.t) :=
  for_each (enumerate target_idioms) (best_match_step similarities) [].

(** The loop over [thresholds] (lines 150-154). *)
Definition best_distribution (target_best_sims : list Q)
  : result (list (Q * nat * Q)) :=
  for_each thresholds (fun thresh lines =>
    let count := count_ge target_best_sims thresh in
    q ← py_truediv count (length target_best_sims);
    let pct := q * 100 in
    Ok (lines ++ [(thresh, count, pct)])) [].

Definition analyze_language_pair : result analysis :=
  similarities ← cosine_similarity en_rows target_rows cosine;
  all_matches ← all_matches_loop similarities;
  let all_matches_sorted := sorted_reverse MatchRecord.similarity all_matches in
  let json := take 100 all_matches_sorted in
  (* fieldnames=all_matches_sorted[0].keys() *)
  header ← py_index all_matches_sorted 0;
  let csv := take 100 all_matches_sorted in
  target_best_matches ← best_matches_loop similarities;
  let target_best_matches_sorted :=
    sorted_reverse BestMatch.similarity target_best_matches in
  let all_sims := matrix_flatten similarities in
  let target_best_sims := BestMatch.similarity <$> target_best_matches in
  let mean := np_mean all_sims in
  let median := np_median all_sims in
  let std := np_std sqrt all_sims in
  mn ← np_min all_sims;
  mx ← np_max all_sims;
  let best_mean := np_mean target_best_sims in
  let best_median := np_median target_best_sims in
  best_mn ← np_min target_best_sims;
  best_mx ← np_max target_best_sims;
  distribution ← best_distribution target_best_sims;
  Ok {| matches_json := json;
        matches_csv_header := header;
        matches_csv := csv;
        best_matches_json := target_best_matches_sorted;
        printed_all_metrics :=
          {| am_mean := mean; am_median := median; am_std := std;
             am_min := mn; am_max := mx |};
        printed_best_metrics :=
          {| bm_mean := best_mean; bm_median := best_median;
             bm_min := best_mn; bm_max := best_mx;
             bm_distribution := distribution |};
        returned := (length all_matches_sorted, target_best_matches_sorted) |}.

End whole_analysis.

End FinnishJapanese.

(** ** analyze_cross_lingual_similarity.py *)

Module CrossLingual.

Definition thresholds : list Q := [0.3; 0.4; 0.5; 0.6; 0.7; 0.8].

(** The distribution over all pairs (lines 176-180): [count] is a numpy
    integer, so the division never raises. *)
Definition all_pairs_distribution (all_sims : list Q)
  : list (Q * nat * np_float) :=
  (fun thresh =>
     let count := count_ge all_sims thresh in
     let pct := np_scale (np_truediv count (length all_sims)) 100 in
     (thresh, count, pct)) <$> thresholds.

(** The distribution over the best match per French idiom (lines 182-186):
    [count] is a Python integer. *)
Definition best_distribution (fr_best_sims : list Q)
  : result (list (Q * nat * Q)) :=
  for_each thresholds (fun thresh lines =>
    let count := count_ge fr_best_sims thresh in
    q ← py_truediv count (length fr_best_sims);
    let pct := q * 100 in
    Ok (lines ++ [(thresh, count, pct)])) [].

End CrossLingual.

(** ** similarity/semantic_matcher.py *)

Module SemanticMatcher.

(** An idiom dictionary as [find_similar_mwes] reads it: the optional keys
    ['text'] and ['idiom']. *)
Record idiom_dict : Type := {
  text : option string;
  idiom_key : option string;
  dict_contexts : list string
}.

(** [english_idioms]: a list of strings or a list of idiom dictionaries. *)
Inductive idiom_list : Type :=
| Texts (l : list string)
| Dicts (l : list idiom_dict).

(** [item.get('text', item.get('idiom', ''))] *)
Definition get_text (item : idiom_dict) : string :=
  match text item with
  | Some t => t
  | None =>
      match idiom_key item with
      | Some i => i
      | None => EmptyString
      end
  end.

(** The branch on [isinstance(english_idioms[0], dict)]; [english_idioms[0]]
    raises [IndexError] on an empty list. *)
Definition idiom_texts (english_idioms : idiom_list) : result (list string) :=
  match english_idioms with
  | Texts [] => Raise IndexError
  | Dicts [] => Raise IndexError
  | Texts l => Ok l
  | Dicts l => Ok (get_text <$> l)
  end.

Section find_similar_mwes.

Variable foreign_mwes : list string.
(** The matrix [compute_similarity(idiom_embeddings, mwe_embeddings)]. *)
Variable similarity_matrix : nat -> nat -> Q.
Variable threshold : Q.
(** [top_k] is a count of matches. *)
Variable top_k : nat.

(** [similarity_matrix[i]]: one entry per foreign MWE. *)
Definition row (i : nat) : list Q :=
  similarity_matrix i <$> range (length foreign_mwes).

(** [np.argsort(similarities)[::-1][:top_k]] *)
Definition top_indices (similarities : list Q) : list nat :=
  take top_k (reverse (np_argsort similarities)).

Definition matched_step (similarities : list Q) (idx : nat)
    (matched_mwes : list (string * Q)) : result (list (string * Q)) :=
  s ← py_index similarities (Z.of_nat idx);
  if Qgeb s threshold then
    mwe ← py_index foreign_mwes (Z.of_nat idx);
    Ok (matched_mwes ++ [(mwe, s)])
  else Ok matched_mwes.

(** The match list built for row [i]. *)
Definition matched (i : nat) : result (list (string * Q)) :=
  let similarities := row i in
  for_each (top_indices similarities) (matched_step similarities) [].

Definition matches_step (entry : nat * string)
    (matches : gmap string (list (string * Q)))
  : result (gmap string (list (string * Q))) :=
  let '(i, idiom) := entry in
  matched_mwes ← matched i;
  match matched_mwes with
  | [] => Ok matches
  | _ :: _ => Ok (<[idiom := matched_mwes]> matches)
  end.

Definition find_similar_mwes (english_idioms : idiom_list)
  : result (gmap string (list (string * Q))) :=
  texts ← idiom_texts english_idioms;
  for_each (enumerate texts) matches_step ∅.

End find_similar_mwes.

(** *** [encode_idioms_with_context]: the texts handed to the encoder *)

Definition text_to_encode (use_contexts : bool) (item : idiom_dict) : string :=
  let idiom_text := get_text item in
  match use_contexts, dict_contexts item with
  | true, _ :: _ =>
      let contexts := take 3 (dict_contexts item) in
      (idiom_text ++ ": " ++ join " " contexts)%string
  | _, _ => idiom_text
  end.

Definition texts_to_encode (idiom_data : list idiom_dict) (use_contexts : bool)
  : list string :=
  text_to_encode use_contexts <$> idiom_data.

(** *** [find_best_match] *)

(** [similarities i] stands for the cosine similarity of the query and
    candidate [i]. The encoder returns one embedding per text, so the
    matrix has one row and one column per candidate. *)
Definition find_best_match (candidates : list string) (similarities : nat -> Q)
  : result (string * Q) :=
  similarity_matrix ← cosine_similarity 1 (length candidates) (fun _ => similarities);
  similarities ← matrix_row similarity_matrix 0;
  best_idx ← np_argmax similarities;
  candidate ← py_index candidates (Z.of_nat best_idx);
  best ← py_index similarities (Z.of_nat best_idx);
  Ok (candidate, best).

(** *** [batch_match] *)

Module BatchResult.
Record t : Type := {
  query : string;
  best_match : string;
  score : Q
}.
End BatchResult.

Section batch_match.

Variables queries candidates : list string.
(** [similarity_matrix i j] stands for the cosine similarity of query
    [i] and candidate [j]. *)
Variable similarity_matrix : nat -> nat -> Q.
Variable threshold : Q.

Definition batch_step (similarity_matrix : matrix) (entry : nat * string)
    (results : list BatchResult.t) : result (list BatchResult.t) :=
  let '(i, query) := entry in
  row_i ← matrix_row similarity_matrix i;
  best_idx ← np_argmax row_i;
  best_score ← py_index row_i (Z.of_nat best_idx);
  if Qgeb best_score threshold then
    candidate ← py_index candidates (Z.of_nat best_idx);
    Ok (results ++ [
      {| BatchResult.query := query;
         BatchResult.best_match := candidate;
         BatchResult.score := best_score |} ])
  else Ok results.

Definition batch_match : result (list BatchResult.t) :=
  similarity_matrix ←
    cosine_similarity (length queries) (length candidates) similarity_matrix;
  for_each (enumerate queries) (batch_step similarity_matrix) [].

End batch_match.

End SemanticMatcher.

(** ** test_cross_lingual_matching.py: the statistics over the matches *)

Module TestCrossLingualMatching.

(** An entry of [match_list]: [(eng_idiom, spanish_matches, best_score)]. *)
Definition match_entry : Type := string * list (string * Q) * Q.

(** [scores = [score for _, sp_matches, _ in match_list
               for _, score in sp_matches]] *)
Definition scores_of (match_list : list match_entry) : list Q :=
  entry ← match_list; snd <$> entry.1.2.

(** What the block guarded by [if scores:] prints. *)
Record score_metrics : Type := {
  sm_mean : Q;
  sm_max : Q;
  sm_min : Q;
  sm_high : nat * Q;
  sm_medium : nat * Q;
  sm_low : nat * Q
}.

(** [sum(1 for s in scores if 0.6 <= s < 0.7)] and its two neighbours. *)
Definition count_high (scores : list Q) : nat :=
  length (filter (fun s => Qgeb s 0.7 = true) scores).
Definition count_medium (scores : list Q) : nat :=
  length (filter (fun s => (Qgeb s 0.6 && Qgtb 0.7 s)%bool = true) scores).
Definition count_low (scores : list Q) : nat :=
  length (filter (fun s => Qgtb 0.6 s = true) scores).

(** The statistics block (lines 266-289): the coverage percentage, then
    the score metrics when there is at least one score. *)
Definition statistics (n_english n_matches : nat) (match_list : list match_entry)
  : result (Q * option score_metrics) :=
  let scores := scores_of match_list in
  coverage ← py_truediv n_matches n_english;
  match scores with
  | [] => Ok (coverage * 100, None)
  | _ :: _ =>
      mean ← py_truediv_Q (Qsum scores) (length scores);
      mx ← py_max scores;
      mn ← py_min scores;
      let high := count_high scores in
      let medium := count_medium scores in
      let low := count_low scores in
      high_pct ← py_truediv high (length scores);
      medium_pct ← py_truediv medium (length scores);
      low_pct ← py_truediv low (length scores);
      Ok (coverage * 100,
          Some {| sm_mean := mean; sm_max := mx; sm_min := mn;
                  sm_high := (high, high_pct * 100);
                  sm_medium := (medium, medium_pct * 100);
                  sm_low := (low, low_pct * 100) |})
  end.

End TestCrossLingualMatching.

(** ** The scorer in binary64

    The same scorer over IEEE 754 binary64 numbers, the representation of
    a Python [float], with the overlap given: it serves to check that the
    rational model and the floating-point code agree at the boundary
    values of the penalty. *)

Module Binary64.

#[local] Set Warnings "-inexact-float".

Definition compute_weighted_similarity
    (idiom_only_sim context_sim overlap idiom_weight context_weight : float)
    (lexical_penalty : bool) : float :=
  let weighted_score :=
    (idiom_weight * idiom_only_sim + context_weight * context_sim)%float in
  if lexical_penalty then
    if ((0.3 <? overlap)%float && (0.6 <? weighted_score)%float)%bool then
      let penalty_factor := (1 - overlap * 0.5)%float in
      (weighted_score * penalty_factor)%float
    else weighted_score
  else weighted_score.

(** [len(shared) / len(total)] for 3 shared tokens of 10, and for 31 of
    100. *)
Definition overlap_3_of_10 : float := (3 / 10)%float.
Definition overlap_31_of_100 : float := (31 / 100)%float.

End Binary64.

(** ** Specification-side notions *)

Section word_tokens.

Context {char : Type}.
Variable is_word_char : char -> bool.

(** A word boundary before a match: the text read so far is empty or ends
    with a non-word character. *)
Definition boundary_before (pre : list char) : Prop :=
  match last pre with
  | Some c => is_word_char c = false
  | None => True
  end.

(** A word boundary after a match: the remaining text is empty or starts
    with a non-word character. *)
Definition boundary_after (post : list char) : Prop :=
  match head post with
  | Some c => is_word_char c = false
  | None => True
  end.

(** A run of word characters. *)
Definition word_run (l : list char) : Prop :=
  Forall (fun c => is_word_char c = true) l.

(** [w] is a match of [\b\w+\b] in [text]: a non-empty run of word
    characters with a word boundary on each side. *)
Definition word_token (w text : list char) : Prop :=
  exists pre post : list char,
    text = pre ++ w ++ post /\ w <> [] /\ word_run w /\
    boundary_before pre /\ boundary_after post.

(** The matches of a text while the run [cur] is being read: the leading
    run if a boundary follows it, or a match in what follows the first
    non-word character. *)
Definition leading_match (cur text w : list char) : Prop :=
  exists r post, text = r ++ post /\ word_run r /\ boundary_after post /\
                 w = cur ++ r /\ w <> [].

Definition later_match (text w : list char) : Prop :=
  exists r c rest, text = r ++ c :: rest /\ word_run r /\
                   is_word_char c = false /\ word_token w rest.

End word_tokens.

(** [str.lower] on ASCII text, character by character. *)
Definition ascii_lower (text : list ascii) : list ascii :=
  Improved.lower_char <$> text.

(** The Jaccard index of two token sets. *)
Definition jaccard (tokens1 tokens2 : gset string) : Q :=
  Qnat (size (tokens1 ∩ tokens2)) / Qnat (size (tokens1 ∪ tokens2)).



(** The idiom at an index of a collection. *)
Definition idiom_at (idioms : list idiom_data) (i : nat) : idiom_data :=
  nth i idioms {| idiom := EmptyString; contexts := []; english_translations := [] |}.

Section mode_a_specification.

Variables en_idioms target_idioms : list idiom_data.
Variables idiom_only_sims context_sims : nat -> nat -> Q.
Variables min_threshold idiom_weight context_weight : Q.

(** The weighted score of the pair of a source and a target index. *)
Definition pair_score (p : nat * nat) : Q :=
  Improved.compute_weighted_similarity
    (idiom_only_sims p.1 p.2) (context_sims p.1 p.2)
    (idiom (idiom_at en_idioms p.1)) (idiom (idiom_at target_idioms p.2))
    idiom_weight context_weight true.

(** The match record of a pair. *)
Definition record_of (p : nat * nat) : Improved.MatchRecord.t :=
  let en := idiom_at en_idioms p.1 in
  let tgt := idiom_at target_idioms p.2 in
  {| Improved.MatchRecord.english_idiom := idiom en;
     Improved.MatchRecord.english_context := first_or_empty (contexts en);
     Improved.MatchRecord.lang_idiom := idiom tgt;
     Improved.MatchRecord.lang_context := first_or_empty (contexts tgt);
     Improved.MatchRecord.english_translation :=
       first_or_empty (english_translations tgt);
     Improved.MatchRecord.weighted_similarity := pair_score p;
     Improved.MatchRecord.idiom_only_similarity := idiom_only_sims p.1 p.2;
     Improved.MatchRecord.context_similarity := context_sims p.1 p.2;
     Improved.MatchRecord.lexical_overlap :=
       Improved.calculate_lexical_overlap (idiom en) (idiom tgt) |}.

(** The pairs of one source index that reach the threshold, in target
    order. *)
Definition retained_row (i : nat) : list (nat * nat) :=
  j ← seq 0 (length target_idioms);
  if Qgeb (pair_score (i, j)) min_threshold then [(i, j)] else [].

(** All pairs that reach the threshold, in first-seen order. *)
Definition retained_pairs : list (nat * nat) :=
  i ← seq 0 (length en_idioms); retained_row i.


End mode_a_specification.

Section mode_b_specification.

Variables en_idioms target_idioms : list idiom_data.
Variables idiom_only_sims context_sims : nat -> nat -> Q.
Variables idiom_weight context_weight : Q.

(** The weighted score of the source idiom [en_idx] for the target idiom
    [tgt_idx]. *)
Definition source_score (tgt_idx en_idx : nat) : Q :=
  pair_score en_idioms target_idioms idiom_only_sims context_sims
    idiom_weight context_weight (en_idx, tgt_idx).

(** [b] is the first-seen source idiom with the highest score among the
    first [k] source idioms. *)
Definition first_best (tgt_idx k b : nat) : Prop :=
  (b < k)%nat
  /\ (forall i, (i < k)%nat -> source_score tgt_idx i <= source_score tgt_idx b)
  /\ (forall i, (i < b)%nat -> source_score tgt_idx i < source_score tgt_idx b).

(** What the scan holds after the first [k] source idioms: still the
    initial values, no score having exceeded -1, or the first-seen best
    source idiom with its score and similarities. *)
Definition scan_inv (tgt_idx k : nat) (st : Improved.best_state) : Prop :=
  let '(best_score, best_en_idx, best_idiom_sim, best_context_sim) := st in
  (best_en_idx = (-1)%Z /\ best_score = -1 /\ best_idiom_sim = 0
   /\ best_context_sim = 0
   /\ forall i, (i < k)%nat -> source_score tgt_idx i <= -1)
  \/ (exists b : nat,
        best_en_idx = Z.of_nat b /\ best_score = source_score tgt_idx b
        /\ best_idiom_sim = idiom_only_sims b tgt_idx
        /\ best_context_sim = context_sims b tgt_idx
        /\ -1 < source_score tgt_idx b /\ first_best tgt_idx k b).

(** What Mode B records for the target idiom [tgt_idx]. *)
Definition best_record_spec (entry : nat * idiom_data) (r : Improved.BestMatch.t)
  : Prop :=
  let tgt_idx := entry.1 in
  let n := length en_idioms in
  Improved.BestMatch.lang_idiom r = idiom entry.2
  /\ ((forall i, (i < n)%nat -> source_score tgt_idx i <= -1) ->
      Improved.BestMatch.best_english_match r = idiom (idiom_at en_idioms (n - 1))
      /\ Improved.BestMatch.weighted_similarity r = -1
      /\ Improved.BestMatch.idiom_only_similarity r = 0
      /\ Improved.BestMatch.context_similarity r = 0)
  /\ (forall b, first_best tgt_idx n b -> -1 < source_score tgt_idx b ->
      Improved.BestMatch.best_english_match r = idiom (idiom_at en_idioms b)
      /\ Improved.BestMatch.weighted_similarity r = source_score tgt_idx b
      /\ Improved.BestMatch.idiom_only_similarity r = idiom_only_sims b tgt_idx
      /\ Improved.BestMatch.context_similarity r = context_sims b tgt_idx).

End mode_b_specification.

(** [b] is the first index of the maximum of [l]. *)
Definition first_max (l : list Q) (b : nat) : Prop :=
  exists m, l !! b = Some m
    /\ (forall j y, l !! j = Some y -> y <= m)
    /\ (forall j y, (j < b)%nat -> l !! j = Some y -> y < m).




(** An idiom dictionary whose contexts are cut to the first three. *)
Definition first_three_contexts (item : SemanticMatcher.idiom_dict)
  : SemanticMatcher.idiom_dict :=
  {| SemanticMatcher.text := SemanticMatcher.text item;
     SemanticMatcher.idiom_key := SemanticMatcher.idiom_key item;
     SemanticMatcher.dict_contexts := take 3 (SemanticMatcher.dict_contexts item) |}.

(** The index [np.argmax] returns on the row of [n] similarities. *)
Definition best_index (similarity_row : nat -> Q) (n : nat) : nat :=
  match np_argmax (similarity_row <$> range n) with
  | Ok b => b
  | Raise _ => O
  end.

(** What the best-match loop of the Finnish/Japanese analysis records for
    a target idiom: the source idiom at the index [np.argmax] returns on
    the column of the target idiom. *)
Definition best_record_of (en_idioms : list idiom_data) (similarities : matrix)
    (entry : nat * idiom_data) : FinnishJapanese.BestMatch.t :=
  let b := best_index (fun i => entries similarities i entry.1)
             (n_rows similarities) in
  let best_en := idiom_at en_idioms b in
  {| FinnishJapanese.BestMatch.lang_idiom := idiom entry.2;
     FinnishJapanese.BestMatch.lang_context := first_or_empty (contexts entry.2);
     FinnishJapanese.BestMatch.english_translation :=
       first_or_empty (english_translations entry.2);
     FinnishJapanese.BestMatch.best_english_match := idiom best_en;
     FinnishJapanese.BestMatch.english_context := first_or_empty (contexts best_en);
     FinnishJapanese.BestMatch.similarity := entries similarities b entry.1 |}.

Section matcher_specification.

Variables queries candidates : list string.
Variable similarity_matrix : nat -> nat -> Q.
Variable threshold : Q.
Variable top_k : nat.

(** The record [batch_match] builds for a query, and what the query
    contributes to the results. *)
Definition batch_record (entry : nat * string) : SemanticMatcher.BatchResult.t :=
  let b := best_index (similarity_matrix entry.1) (length candidates) in
  {| SemanticMatcher.BatchResult.query := entry.2;
     SemanticMatcher.BatchResult.best_match := nth b candidates EmptyString;
     SemanticMatcher.BatchResult.score := similarity_matrix entry.1 b |}.

Definition batch_kept (entry : nat * string) : list SemanticMatcher.BatchResult.t :=
  if Qgeb (SemanticMatcher.BatchResult.score (batch_record entry)) threshold
  then [batch_record entry] else [].

(** The candidates of row [i] that [find_similar_mwes] looks at, best
    first, and what each contributes to the match list. *)
Definition ranked_candidates (i : nat) : list (nat * Q) :=
  take top_k
    (reverse (sorted_asc snd
                (enumerate (SemanticMatcher.row candidates similarity_matrix i)))).

Definition kept_pair (p : nat * Q) : list (string * Q) :=
  if Qgeb p.2 threshold then [(nth p.1 candidates EmptyString, p.2)] else [].

End matcher_specification.

(** ** Sample inputs *)

(** The word made of [n + 1] letters [a]; different [n] give different
    words. *)
Fixpoint unary_word (n : nat) : string :=
  String "a" (match n with O => EmptyString | S n' => unary_word n' end).

(** The text made of the words numbered [ns], separated by spaces. *)
Fixpoint words (ns : list nat) : string :=
  match ns with
  | [] => EmptyString
  | n :: ns' => (unary_word n ++ String " " (words ns'))%string
  end.

(** Two texts of 65 and 66 distinct words that share 31 of them: 100
    distinct words in all, overlap [31 / 100]. *)
Definition text_65 : string := words (seq 0 65).
Definition text_66 : string := words (seq 0 31 ++ seq 65 35).

(** Two texts with 3 shared words out of 10: overlap [3 / 10]. *)
Definition text_7 : string := "a b c d e f g".
Definition text_6 : string := "A, B, C; h i j".

Definition sample_idiom (s : string) : idiom_data :=
  {| idiom := s; contexts := []; english_translations := [] |}.

(** The code points of an ASCII text. *)
Definition code_points (s : string) : list N :=
  N_of_ascii <$> list_ascii_of_string s.

Definition in_range (lo hi c : N) : bool := ((lo <=? c)%N && (c <=? hi)%N)%bool.

(** The two Unicode tables on the code points below 256 (Latin-1), for
    examples in that range: the word characters are the digits, the
    letters, the underscore, the two ordinal indicators, the micro sign,
    the superscript digits and the three fractions; lowercasing adds 32
    to [A-Z], to [U+00C0-U+00D6] and to [U+00D8-U+00DE]. *)
Definition latin1_is_word_char (c : N) : bool :=
  (in_range 48 57 c || in_range 65 90 c || (c =? 95)%N || in_range 97 122 c
   || (c =? 170)%N || in_range 178 179 c || (c =? 181)%N || in_range 185 186 c
   || in_range 188 190 c || in_range 192 214 c || in_range 216 246 c
   || in_range 248 255 c)%bool.

Definition latin1_lower_char (c : N) : N :=
  if (in_range 65 90 c || in_range 192 214 c || in_range 216 222 c)%bool
  then (c + 32)%N else c.

Definition latin1_lower (text : list N) : list N := latin1_lower_char <$> text.

(** * Properties *)

(** ** Comparisons and indexing *)

Lemma Qgtb_lt (x y : Q) : Qgtb x y = true <-> y < x.
Proof.
  unfold Qgtb. rewrite negb_true_iff, <- not_true_iff_false, Qle_bool_iff.
  split; [apply Qnot_le_lt | apply Qlt_not_le].
Qed.

Lemma Qgtb_le (x y : Q) : Qgtb x y = false <-> x <= y.
Proof.
  unfold Qgtb. rewrite negb_false_iff. apply Qle_bool_iff.
Qed.

Lemma Qgeb_le (x y : Q) : Qgeb x y = true <-> y <= x.
Proof. apply Qle_bool_iff. Qed.

Lemma Qgeb_lt (x y : Q) : Qgeb x y = false <-> x < y.
Proof.
  unfold Qgeb. rewrite <- not_true_iff_false, Qle_bool_iff.
  split; [apply Qnot_le_lt | apply Qlt_not_le].
Qed.

Lemma py_index_nat {A : Type} (l : list A) (i : nat) (a : A) :
  l !! i = Some a -> py_index l (Z.of_nat i) = Ok a.
Proof.
  intros Hi. pose proof (lookup_lt_Some _ _ _ Hi) as Hlt.
  unfold py_index.
  replace (Z.of_nat i <? 0)%Z with false by (symmetry; apply Z.ltb_ge; lia).
  replace (0 <=? Z.of_nat i)%Z with true by (symmetry; apply Z.leb_le; lia).
  replace (Z.of_nat i <? Z.of_nat (length l))%Z with true
    by (symmetry; apply Z.ltb_lt; lia).
  simpl. rewrite Nat2Z.id, Hi. reflexivity.
Qed.

Lemma py_index_nil {A : Type} (i : Z) : py_index (@nil A) i = Raise IndexError.
Proof.
  unfold py_index. simpl. destruct (_ && _)%bool; reflexivity.
Qed.

(** ** Lexical overlap *)

Lemma Qnat_nonneg (n : nat) : 0 <= Qnat n.
Proof. unfold Qnat, Qle. simpl. lia. Qed.

Lemma Qnat_pos (n : nat) : (0 < n)%nat -> 0 < Qnat n.
Proof. intros H. unfold Qnat, Qlt. simpl. lia. Qed.

Lemma Qnat_le (n m : nat) : (n <= m)%nat -> Qnat n <= Qnat m.
Proof. intros H. unfold Qnat, Qle. simpl. lia. Qed.

Lemma Qnat_ratio_bounds (n m : nat) :
  (n <= m)%nat -> (0 < m)%nat -> 0 <= Qnat n / Qnat m <= 1.
Proof.
  intros Hle Hpos. pose proof (Qnat_pos m Hpos) as Hm. split.
  - apply Qle_shift_div_l; [exact Hm |]. rewrite Qmult_0_l. apply Qnat_nonneg.
  - apply Qle_shift_div_r; [exact Hm |]. rewrite Qmult_1_l. apply Qnat_le, Hle.
Qed.

Lemma Qnat_ratio_self (n : nat) : (0 < n)%nat -> Qnat n / Qnat n == 1.
Proof.
  intros Hpos. apply Qmult_inv_r. intros H0.
  pose proof (Qnat_pos n Hpos) as Hn. rewrite H0 in Hn. exact (Qlt_irrefl _ Hn).
Qed.

Lemma truthy_set_true (s : gset string) :
  Improved.truthy_set s = true <-> s <> ∅.
Proof.
  unfold Improved.truthy_set. rewrite negb_true_iff, bool_decide_eq_false. reflexivity.
Qed.

Lemma truthy_set_false (s : gset string) :
  Improved.truthy_set s = false <-> s = ∅.
Proof.
  unfold Improved.truthy_set. rewrite negb_false_iff, bool_decide_eq_true. reflexivity.
Qed.

(** With an empty token set on either side the overlap is [0.0]. *)
Lemma overlap_empty (idiom1 idiom2 : string) :
  Improved.get_tokens idiom1 = ∅ \/ Improved.get_tokens idiom2 = ∅ ->
  Improved.calculate_lexical_overlap idiom1 idiom2 = 0.
Proof.
  intros H. unfold Improved.calculate_lexical_overlap.
  destruct H as [H | H]; apply truthy_set_false in H; rewrite H; simpl.
  - reflexivity.
  - rewrite orb_true_r. reflexivity.
Qed.

(** With two non-empty token sets the overlap is the Jaccard index, and
    the union it divides by is not empty. *)
Lemma overlap_jaccard (idiom1 idiom2 : string) :
  Improved.get_tokens idiom1 <> ∅ -> Improved.get_tokens idiom2 <> ∅ ->
  Improved.calculate_lexical_overlap idiom1 idiom2
    = jaccard (Improved.get_tokens idiom1) (Improved.get_tokens idiom2)
  /\ (0 < size (Improved.get_tokens idiom1 ∪ Improved.get_tokens idiom2))%nat.
Proof.
  intros H1 H2. unfold Improved.calculate_lexical_overlap, jaccard.
  assert (Hu : Improved.get_tokens idiom1 ∪ Improved.get_tokens idiom2 <> ∅).
  { intros E. apply empty_union_L in E as [E _]. contradiction. }
  apply truthy_set_true in H1, H2. rewrite H1, H2. simpl.
  pose proof Hu as Hu'. apply truthy_set_true in Hu'. rewrite Hu'.
  split; [reflexivity |].
  destruct (size (Improved.get_tokens idiom1 ∪ Improved.get_tokens idiom2)) eqn:Hs;
    [| lia].
  apply size_empty_inv in Hs. apply leibniz_equiv in Hs. contradiction.
Qed.

Lemma overlap_sym (idiom1 idiom2 : string) :
  Improved.calculate_lexical_overlap idiom1 idiom2
  = Improved.calculate_lexical_overlap idiom2 idiom1.
Proof.
  unfold Improved.calculate_lexical_overlap.
  assert (Hi : Improved.get_tokens idiom1 ∩ Improved.get_tokens idiom2
               = Improved.get_tokens idiom2 ∩ Improved.get_tokens idiom1)
    by apply (comm_L (∩)).
  assert (Hu : Improved.get_tokens idiom1 ∪ Improved.get_tokens idiom2
               = Improved.get_tokens idiom2 ∪ Improved.get_tokens idiom1)
    by apply (comm_L (∪)).
  rewrite Hi, Hu.
  rewrite (orb_comm (negb (Improved.truthy_set (Improved.get_tokens idiom1)))).
  reflexivity.
Qed.

Lemma overlap_bounds (idiom1 idiom2 : string) :
  0 <= Improved.calculate_lexical_overlap idiom1 idiom2 <= 1.
Proof.
  destruct (decide (Improved.get_tokens idiom1 = ∅)) as [E1 | N1].
  { rewrite overlap_empty by (left; exact E1). split; [apply Qle_refl | discriminate]. }
  destruct (decide (Improved.get_tokens idiom2 = ∅)) as [E2 | N2].
  { rewrite overlap_empty by (right; exact E2). split; [apply Qle_refl | discriminate]. }
  destruct (overlap_jaccard idiom1 idiom2 N1 N2) as [-> Hpos].
  apply Qnat_ratio_bounds; [| exact Hpos].
  apply subseteq_size.
  etrans; [apply intersection_subseteq_l | apply union_subseteq_l].
Qed.

Lemma overlap_self (idiom1 : string) :
  Improved.get_tokens idiom1 <> ∅ ->
  Improved.calculate_lexical_overlap idiom1 idiom1 == 1.
Proof.
  intros N. destruct (overlap_jaccard idiom1 idiom1 N N) as [-> Hpos].
  unfold jaccard.
  assert (Hi : Improved.get_tokens idiom1 ∩ Improved.get_tokens idiom1
               = Improved.get_tokens idiom1) by apply (idemp_L (∩)).
  assert (Hu : Improved.get_tokens idiom1 ∪ Improved.get_tokens idiom1
               = Improved.get_tokens idiom1) by apply (idemp_L (∪)).
  rewrite Hi. rewrite Hu in *.
  apply Qnat_ratio_self, Hpos.
Qed.

(** ** Tokens are the matches of [\b\w+\b] *)

Section tokens_are_word_tokens.

Context {char : Type} `{Countable char}.
Variable is_word_char : char -> bool.

Lemma word_run_nil : word_run is_word_char [].
Proof. apply Forall_nil_2. Qed.

Lemma word_run_cons (c : char) (l : list char) :
  word_run is_word_char (c :: l) <-> is_word_char c = true /\ word_run is_word_char l.
Proof.
  exact (Forall_cons (fun a => is_word_char a = true) c l).
Qed.

Lemma elem_of_emit (w cur : list char) :
  w ∈ Unicode.emit cur <-> w = cur /\ cur <> [].
Proof.
  destruct cur as [| c cur]; simpl.
  - split; [intros Hw; inversion Hw | intros [_ Hw]; contradiction].
  - rewrite list_elem_of_singleton.
    split; [intros ->; split; [reflexivity | discriminate] | tauto].
Qed.

Lemma first_non_word (l : list char) :
  word_run is_word_char l \/
  exists r c rest,
    l = r ++ c :: rest /\ word_run is_word_char r /\ is_word_char c = false.
Proof.
  induction l as [| a l IH].
  - left. apply word_run_nil.
  - destruct (is_word_char a) eqn:Ha.
    + destruct IH as [IH | (r & c & rest & -> & Hr & Hc)].
      * left. apply word_run_cons. split; assumption.
      * right. exists (a :: r), c, rest.
        split; [reflexivity |]. split; [apply word_run_cons; split; assumption |].
        exact Hc.
    + right. exists [], a, l.
      split; [reflexivity |]. split; [apply word_run_nil | exact Ha].
Qed.

Lemma boundary_before_word_run (pre : list char) :
  word_run is_word_char pre -> boundary_before is_word_char pre -> pre = [].
Proof.
  intros Hrun Hb. destruct (last pre) as [c |] eqn:Hl.
  - unfold boundary_before in Hb. rewrite Hl in Hb.
    apply last_Some in Hl as [pre' ->].
    apply Forall_app in Hrun as [_ Hc]. apply Forall_cons in Hc as [Hc _].
    congruence.
  - apply last_None in Hl. exact Hl.
Qed.

Lemma boundary_before_after_non_word (r pre : list char) (c : char) :
  is_word_char c = false ->
  boundary_before is_word_char (r ++ c :: pre) <-> boundary_before is_word_char pre.
Proof.
  intros Hc. unfold boundary_before.
  rewrite last_app, last_cons. destruct (last pre); simpl; tauto.
Qed.

Lemma word_token_split (w text : list char) :
  word_token is_word_char w text
  <-> leading_match is_word_char [] text w \/ later_match is_word_char text w.
Proof.
  split.
  - intros (pre & post & -> & Hne & Hw & Hb & Ha).
    destruct (first_non_word pre) as [Hrun | (r & c & rest & -> & Hr & Hc)].
    + apply boundary_before_word_run in Hb; [| exact Hrun]. subst pre.
      left. exists w, post. auto.
    + right. exists r, c, (rest ++ w ++ post).
      split; [rewrite <- app_assoc; reflexivity |].
      split; [exact Hr |]. split; [exact Hc |].
      exists rest, post. split; [reflexivity |].
      split; [exact Hne |]. split; [exact Hw |]. split; [| exact Ha].
      apply (boundary_before_after_non_word r rest c Hc), Hb.
  - intros [(r & post & -> & Hr & Ha & -> & Hne)
           | (r & c & rest & -> & Hr & Hc & pre & post & -> & Hne & Hw & Hb & Ha)].
    + exists [], post. simpl. split; [reflexivity |].
      split; [exact Hne |]. split; [exact Hr |]. split; [exact I | exact Ha].
    + exists (r ++ c :: pre), post.
      split; [rewrite <- app_assoc; reflexivity |].
      split; [exact Hne |]. split; [exact Hw |]. split; [| exact Ha].
      apply (boundary_before_after_non_word r pre c Hc), Hb.
Qed.

Lemma findall_words_nil (cur w : list char) :
  w ∈ Unicode.emit cur
  <-> leading_match is_word_char cur [] w \/ later_match is_word_char [] w.
Proof.
  rewrite elem_of_emit. split.
  - intros [-> Hne]. left. exists [], [].
    split; [reflexivity |]. split; [apply word_run_nil |].
    split; [exact I |]. split; [symmetry; apply app_nil_r | exact Hne].
  - intros [(r & post & Ht & _ & _ & -> & Hne) | (r & c & rest & Ht & _)].
    + symmetry in Ht. apply app_eq_nil in Ht as [-> _].
      rewrite app_nil_r in *. split; [reflexivity | exact Hne].
    + destruct r; discriminate.
Qed.

Lemma matches_word_step (c : char) (text cur w : list char) :
  is_word_char c = true ->
  (leading_match is_word_char (cur ++ [c]) text w \/ later_match is_word_char text w)
  <-> (leading_match is_word_char cur (c :: text) w
       \/ later_match is_word_char (c :: text) w).
Proof.
  intros Hc. split.
  - intros [(r & post & -> & Hr & Ha & -> & Hne)
           | (r & c' & rest & -> & Hr & Hc' & Htok)].
    + left. exists (c :: r), post. rewrite <- app_assoc in *.
      split; [reflexivity |]. split; [apply word_run_cons; split; assumption |].
      split; [exact Ha |]. split; [reflexivity | exact Hne].
    + right. exists (c :: r), c', rest.
      split; [reflexivity |]. split; [apply word_run_cons; split; assumption |].
      split; assumption.
  - intros [(r & post & Ht & Hr & Ha & -> & Hne)
           | (r & c' & rest & Ht & Hr & Hc' & Htok)].
    + destruct r as [| a r]; simpl in Ht.
      { subst post. unfold boundary_after in Ha. simpl in Ha. congruence. }
      injection Ht as <- ->. apply word_run_cons in Hr as [_ Hr].
      left. exists r, post. rewrite <- app_assoc.
      split; [reflexivity |]. split; [exact Hr |].
      split; [exact Ha |]. split; [reflexivity | exact Hne].
    + destruct r as [| a r]; simpl in Ht.
      { injection Ht as <- _. congruence. }
      injection Ht as <- ->. apply word_run_cons in Hr as [_ Hr].
      right. exists r, c', rest. auto.
Qed.

Lemma matches_non_word_step (c : char) (text cur w : list char) :
  is_word_char c = false ->
  ((w = cur /\ cur <> []) \/ word_token is_word_char w text)
  <-> (leading_match is_word_char cur (c :: text) w
       \/ later_match is_word_char (c :: text) w).
Proof.
  intros Hc. split.
  - intros [[-> Hne] | Htok].
    + left. exists [], (c :: text). rewrite app_nil_r.
      split; [reflexivity |]. split; [apply word_run_nil |].
      split; [exact Hc |]. split; [reflexivity | exact Hne].
    + right. exists [], c, text.
      split; [reflexivity |]. split; [apply word_run_nil |]. split; assumption.
  - intros [(r & post & Ht & Hr & Ha & -> & Hne)
           | (r & c' & rest & Ht & Hr & Hc' & Htok)].
    + destruct r as [| a r]; simpl in Ht.
      { left. rewrite app_nil_r in *. split; [reflexivity | exact Hne]. }
      injection Ht as <- _. apply word_run_cons in Hr as [Hr _]. congruence.
    + destruct r as [| a r]; simpl in Ht.
      { injection Ht as _ <-. right. exact Htok. }
      injection Ht as <- _. apply word_run_cons in Hr as [Hr _]. congruence.
Qed.

Lemma findall_words_matches (text cur w : list char) :
  w ∈ Unicode.findall_words is_word_char cur text
  <-> leading_match is_word_char cur text w \/ later_match is_word_char text w.
Proof.
  revert cur. induction text as [| c text IH]; intros cur; simpl.
  - apply findall_words_nil.
  - destruct (is_word_char c) eqn:Hc.
    + rewrite IH. apply matches_word_step, Hc.
    + rewrite elem_of_app, elem_of_emit, IH, <- word_token_split.
      apply matches_non_word_step, Hc.
Qed.

(** The matches found in a text are exactly its word tokens. *)
Lemma findall_words_word_token (text w : list char) :
  w ∈ Unicode.findall_words is_word_char [] text <-> word_token is_word_char w text.
Proof. rewrite findall_words_matches, word_token_split. reflexivity. Qed.

Variable lower : list char -> list char.

Lemma elem_of_unicode_tokens (text w : list char) :
  w ∈ Unicode.get_tokens is_word_char lower text
  <-> word_token is_word_char w (lower text).
Proof.
  unfold Unicode.get_tokens. rewrite elem_of_list_to_set.
  apply findall_words_word_token.
Qed.

Lemma unicode_truthy_set_true (s : gset (list char)) :
  Unicode.truthy_set s = true <-> s <> ∅.
Proof.
  unfold Unicode.truthy_set. rewrite negb_true_iff, bool_decide_eq_false. reflexivity.
Qed.

Lemma unicode_truthy_set_false (s : gset (list char)) :
  Unicode.truthy_set s = false <-> s = ∅.
Proof.
  unfold Unicode.truthy_set. rewrite negb_false_iff, bool_decide_eq_true. reflexivity.
Qed.

Lemma unicode_overlap_empty (idiom1 idiom2 : list char) :
  Unicode.get_tokens is_word_char lower idiom1 = ∅
  \/ Unicode.get_tokens is_word_char lower idiom2 = ∅ ->
  Unicode.calculate_lexical_overlap is_word_char lower idiom1 idiom2 = 0.
Proof.
  intros Hempty. unfold Unicode.calculate_lexical_overlap.
  destruct Hempty as [He | He]; apply unicode_truthy_set_false in He; rewrite He; simpl.
  - reflexivity.
  - rewrite orb_true_r. reflexivity.
Qed.

Lemma unicode_overlap_jaccard (idiom1 idiom2 : list char) :
  Unicode.get_tokens is_word_char lower idiom1 <> ∅ ->
  Unicode.get_tokens is_word_char lower idiom2 <> ∅ ->
  Unicode.calculate_lexical_overlap is_word_char lower idiom1 idiom2
    = Qnat (size (Unicode.get_tokens is_word_char lower idiom1
                  ∩ Unicode.get_tokens is_word_char lower idiom2))
      / Qnat (size (Unicode.get_tokens is_word_char lower idiom1
                    ∪ Unicode.get_tokens is_word_char lower idiom2))
  /\ (0 < size (Unicode.get_tokens is_word_char lower idiom1
                ∪ Unicode.get_tokens is_word_char lower idiom2))%nat.
Proof.
  intros H1 H2. unfold Unicode.calculate_lexical_overlap.
  set (tokens1 := Unicode.get_tokens is_word_char lower idiom1) in *.
  set (tokens2 := Unicode.get_tokens is_word_char lower idiom2) in *.
  assert (Hu : tokens1 ∪ tokens2 <> ∅).
  { intros E. apply empty_union_L in E as [E _]. contradiction. }
  apply unicode_truthy_set_true in H1, H2. rewrite H1, H2. simpl.
  pose proof Hu as Hu'. apply unicode_truthy_set_true in Hu'. rewrite Hu'.
  split; [reflexivity |].
  destruct (size (tokens1 ∪ tokens2)) eqn:Hs; [| lia].
  apply size_empty_inv in Hs. apply leibniz_equiv in Hs. contradiction.
Qed.

End tokens_are_word_tokens.

(** ** The tokenizer on ASCII text

    The tokenizer of the scorer is the general one at the ASCII tables,
    and so is its lexical overlap. *)

Lemma findall_words_ascii (cur text : list ascii) :
  Improved.findall_words cur text
  = Unicode.findall_words Improved.is_word_char cur text.
Proof.
  revert cur. induction text as [| c text IH]; intros cur; simpl; [reflexivity |].
  rewrite !IH. reflexivity.
Qed.

Lemma get_tokens_ascii (text : string) :
  Improved.get_tokens text
  = set_map (D:=gset string) string_of_list_ascii
      (Unicode.get_tokens Improved.is_word_char ascii_lower
         (list_ascii_of_string text)).
Proof.
  unfold Improved.get_tokens, Unicode.get_tokens, Improved.lower, ascii_lower.
  rewrite list_ascii_of_string_of_list_ascii, findall_words_ascii.
  apply list_to_set_fmap_L.
Qed.

#[local] Instance string_of_list_ascii_inj : Inj (=) (=) string_of_list_ascii.
Proof.
  intros l1 l2 Heq. apply (f_equal list_ascii_of_string) in Heq.
  rewrite !list_ascii_of_string_of_list_ascii in Heq. exact Heq.
Qed.

Section injective_image.

Context {A B : Type} `{Countable A, Countable B}.
Variable f : A -> B.
Context `{!Inj (=) (=) f}.

Lemma size_set_map_inj (X : gset A) : size (set_map (D:=gset B) f X) = size X.
Proof.
  induction X as [| x X Hx IH] using set_ind_L.
  - rewrite set_map_empty, !size_empty. reflexivity.
  - rewrite set_map_union_L, set_map_singleton_L.
    rewrite !size_union, !size_singleton, IH; [reflexivity | |].
    + apply disjoint_singleton_l. exact Hx.
    + apply disjoint_singleton_l. intros Hin.
      apply elem_of_map in Hin as (x' & Heq & Hx'). apply (inj f) in Heq.
      subst x'. contradiction.
Qed.

Lemma set_map_intersection_inj (X Y : gset A) :
  set_map (D:=gset B) f (X ∩ Y) = set_map f X ∩ set_map f Y.
Proof.
  apply set_eq. intros y. rewrite elem_of_intersection, !elem_of_map. split.
  - intros (x & -> & Hx). apply elem_of_intersection in Hx as [Hx Hy].
    split; exists x; auto.
  - intros [(x & -> & Hx) (x' & Heq & Hy)]. apply (inj f) in Heq. subst x'.
    exists x. split; [reflexivity |]. apply elem_of_intersection. auto.
Qed.

Lemma set_map_empty_inj (X : gset A) : set_map (D:=gset B) f X = ∅ <-> X = ∅.
Proof.
  split.
  - intros Heq. apply (f_equal size) in Heq.
    rewrite size_set_map_inj, size_empty in Heq.
    apply size_empty_inv in Heq. apply leibniz_equiv, Heq.
  - intros ->. apply set_map_empty.
Qed.

End injective_image.

(** On ASCII text the lexical overlap of the scorer is the lexical overlap
    over Unicode at the ASCII tables. *)
Lemma overlap_ascii (idiom1 idiom2 : string) :
  Improved.calculate_lexical_overlap idiom1 idiom2
  = Unicode.calculate_lexical_overlap Improved.is_word_char ascii_lower
      (list_ascii_of_string idiom1) (list_ascii_of_string idiom2).
Proof.
  unfold Improved.calculate_lexical_overlap, Unicode.calculate_lexical_overlap.
  rewrite !get_tokens_ascii.
  set (tokens1 := Unicode.get_tokens Improved.is_word_char ascii_lower
                    (list_ascii_of_string idiom1)).
  set (tokens2 := Unicode.get_tokens Improved.is_word_char ascii_lower
                    (list_ascii_of_string idiom2)).
  assert (Htruthy : forall X : gset (list ascii),
            Improved.truthy_set (set_map (D:=gset string) string_of_list_ascii X)
            = Unicode.truthy_set X).
  { intros X. unfold Improved.truthy_set, Unicode.truthy_set. f_equal.
    apply bool_decide_ext, set_map_empty_inj; apply _. }
  rewrite <- set_map_intersection_inj, <- set_map_union_L by apply _.
  rewrite !Htruthy, !size_set_map_inj by apply _. reflexivity.
Qed.

(** ** The claims on the lexical overlap and on the weighted scorer *)

(** C6: the lexical overlap lowercases both texts, takes as tokens the
    matches of the word-boundary pattern (the non-empty runs of word
    characters between two word boundaries, so punctuation is dropped),
    forms the set of the tokens of each text, returns 0.0 when either set
    is empty and the Jaccard index |intersection| / |union| otherwise.
    This holds over any alphabet, whatever the word characters and the
    lowercasing of the Unicode database are. *)
Theorem C6_lexical_overlap_is_jaccard_of_word_tokens
    {char : Type} `{Countable char}
    (is_word_char : char -> bool) (lower : list char -> list char)
    (idiom1 idiom2 : list char) :
  let get_tokens := Unicode.get_tokens is_word_char lower in
  let overlap := Unicode.calculate_lexical_overlap is_word_char lower in
  (forall text w : list char,
     w ∈ get_tokens text <-> word_token is_word_char w (lower text))
  /\ (get_tokens idiom1 = ∅ \/ get_tokens idiom2 = ∅ -> overlap idiom1 idiom2 = 0)
  /\ (get_tokens idiom1 <> ∅ -> get_tokens idiom2 <> ∅ ->
      overlap idiom1 idiom2
      = Qnat (size (get_tokens idiom1 ∩ get_tokens idiom2))
        / Qnat (size (get_tokens idiom1 ∪ get_tokens idiom2))
      /\ (0 < size (get_tokens idiom1 ∪ get_tokens idiom2))%nat).
Proof.
  intros get_tokens overlap.
  split; [apply elem_of_unicode_tokens |].
  split; [apply unicode_overlap_empty |].
  apply unicode_overlap_jaccard.
Qed.

Lemma C6_witness :
  Unicode.calculate_lexical_overlap latin1_is_word_char latin1_lower
    (192%N :: code_points " la carte!") (code_points "a la carte") == 0.5
  /\ Unicode.calculate_lexical_overlap latin1_is_word_char latin1_lower
       (code_points "?!") (code_points "kick") = 0.
Proof.
  pose proof (C6_lexical_overlap_is_jaccard_of_word_tokens
                latin1_is_word_char latin1_lower
                (192%N :: code_points " la carte!") (code_points "a la carte"))
    as (_ & _ & Hj).
  pose proof (C6_lexical_overlap_is_jaccard_of_word_tokens
                latin1_is_word_char latin1_lower
                (code_points "?!") (code_points "kick")) as (_ & H0 & _).
  split.
  - destruct Hj as [-> _].
    + apply unicode_truthy_set_true. vm_compute. reflexivity.
    + apply unicode_truthy_set_true. vm_compute. reflexivity.
    + vm_compute. reflexivity.
  - apply H0. left. apply unicode_truthy_set_false. vm_compute. reflexivity.
Defined.

(** C7, as the code has it: the overlap is symmetric, lies in [0, 1], is
    1.0 of a text with itself when the text has at least one token, and
    is 0.0 when either text has no token. *)
Theorem C7_overlap_symmetric_bounded (A B : string) :
  Improved.calculate_lexical_overlap A B == Improved.calculate_lexical_overlap B A
  /\ 0 <= Improved.calculate_lexical_overlap A B <= 1
  /\ (Improved.get_tokens A <> ∅ -> Improved.calculate_lexical_overlap A A == 1)
  /\ (Improved.get_tokens A = ∅ \/ Improved.get_tokens B = ∅ ->
      Improved.calculate_lexical_overlap A B == 0).
Proof.
  split; [rewrite overlap_sym; reflexivity |].
  split; [apply overlap_bounds |].
  split; [apply overlap_self |].
  intros H. rewrite (overlap_empty A B H). reflexivity.
Qed.

Lemma C7_witness :
  Improved.calculate_lexical_overlap "spill the beans" "spill the beans" == 1
  /\ Improved.calculate_lexical_overlap "..." "spill the beans" == 0.
Proof.
  split.
  - apply (C7_overlap_symmetric_bounded "spill the beans" "spill the beans").
    apply truthy_set_true. vm_compute. reflexivity.
  - apply (C7_overlap_symmetric_bounded "..." "spill the beans").
    left. apply truthy_set_false. vm_compute. reflexivity.
Defined.

(** C7 as stated fails: a non-empty text without any word character has
    overlap 0.0 with itself, not 1.0. *)
Lemma C7_counterexample :
  ~ (forall A : string,
       A <> EmptyString -> Improved.calculate_lexical_overlap A A == 1).
Proof.
  intros H. specialize (H "!"%string ltac:(discriminate)).
  vm_compute in H. discriminate H.
Qed.

(** C1: the scorer computes the base
    [idiom_weight * idiom_sim + context_weight * context_sim]; with the
    penalty enabled it multiplies the base by [1 - overlap * 0.5] exactly
    when [overlap > 0.3] and [base > 0.6], both bounds strict, and returns
    the base unchanged otherwise. An overlap of exactly 0.3 is not
    penalised; an overlap of 0.31 with a base of 0.61 gives the multiplier
    0.845. *)
Theorem C1_weighted_score_and_penalty
    (idiom_sim context_sim : Q) (idiom1 idiom2 : string)
    (idiom_weight context_weight : Q) (lexical_penalty : bool) :
  let base := Improved.base_score idiom_weight context_weight idiom_sim context_sim in
  let overlap := Improved.calculate_lexical_overlap idiom1 idiom2 in
  let score :=
    Improved.compute_weighted_similarity idiom_sim context_sim idiom1 idiom2
      idiom_weight context_weight lexical_penalty in
  base = idiom_weight * idiom_sim + context_weight * context_sim
  /\ (lexical_penalty = true -> 0.3 < overlap -> 0.6 < base ->
      score = base * (1 - overlap * 0.5))
  /\ (lexical_penalty = false \/ overlap <= 0.3 \/ base <= 0.6 -> score = base)
  /\ (overlap == 0.3 -> score = base)
  /\ (lexical_penalty = true -> overlap == 0.31 -> base == 0.61 ->
      score = base * (1 - overlap * 0.5) /\ 1 - overlap * 0.5 == 0.845).
Proof.
  intros base overlap score.
  assert (Hpen : lexical_penalty = true -> 0.3 < overlap -> 0.6 < base ->
                 score = base * (1 - overlap * 0.5)).
  { intros -> Ho Hb. subst score. unfold Improved.compute_weighted_similarity.
    fold base. fold overlap.
    apply Qgtb_lt in Ho, Hb. rewrite Ho, Hb. reflexivity. }
  assert (Hno : lexical_penalty = false \/ overlap <= 0.3 \/ base <= 0.6 ->
                score = base).
  { intros H. subst score. unfold Improved.compute_weighted_similarity.
    fold base. fold overlap.
    destruct lexical_penalty; [| reflexivity].
    destruct H as [H | [H | H]]; [discriminate | |];
      apply Qgtb_le in H; rewrite H; [| rewrite andb_false_r]; reflexivity. }
  split; [reflexivity |].
  split; [exact Hpen |].
  split; [exact Hno |].
  split.
  - intros Ho. apply Hno. right. left. rewrite Ho. apply Qle_refl.
  - intros Hp Ho Hb. split.
    + apply Hpen; [exact Hp | rewrite Ho; reflexivity | rewrite Hb; reflexivity].
    + rewrite Ho. reflexivity.
Qed.

Lemma C1_witness :
  Improved.compute_weighted_similarity 0.75 0.75 "kick the bucket" "kick the can"
    0.6 0.4 true == 0.5625
  /\ Improved.compute_weighted_similarity 0.9 0.8 text_7 text_6 0.6 0.4 true == 0.86
  /\ Improved.compute_weighted_similarity 0.9 0.8 "A" "X" 0.6 0.4 true == 0.86
  /\ Improved.compute_weighted_similarity 0.61 0.61 text_65 text_66 0.6 0.4 true
     == 0.61 * 0.845.
Proof.
  split; [| split; [| split]].
  - pose proof (C1_weighted_score_and_penalty 0.75 0.75 "kick the bucket"
                  "kick the can" 0.6 0.4 true) as (_ & H & _).
    rewrite H; [vm_compute; reflexivity | reflexivity | |];
      vm_compute; reflexivity.
  - pose proof (C1_weighted_score_and_penalty 0.9 0.8 text_7 text_6 0.6 0.4 true)
      as (_ & _ & _ & H & _).
    rewrite H; vm_compute; reflexivity.
  - pose proof (C1_weighted_score_and_penalty 0.9 0.8 "A" "X" 0.6 0.4 true)
      as (_ & _ & H & _).
    rewrite H; [vm_compute; reflexivity |].
    right. left. vm_compute. discriminate.
  - pose proof (C1_weighted_score_and_penalty 0.61 0.61 text_65 text_66 0.6 0.4 true)
      as (_ & _ & _ & _ & H).
    destruct H as [-> Hm]; [reflexivity | vm_compute; reflexivity
                           | vm_compute; reflexivity |].
    rewrite Hm. vm_compute. reflexivity.
Defined.

(** The boundary values of C1 in binary64: an overlap of 3/10 is the
    float 0.3 and is not penalised; 31/100 is the float 0.31, a base of
    0.61 is penalised and the multiplier [1 - 0.31 * 0.5] is the float
    0.845. *)
#[local] Set Warnings "-inexact-float".
Remark penalty_boundary_binary64 :
  (Binary64.overlap_3_of_10 =? 0.3)%float = true
  /\ (Binary64.compute_weighted_similarity 0.9 0.8 Binary64.overlap_3_of_10
        0.6 0.4 true =? 0.6 * 0.9 + 0.4 * 0.8)%float = true
  /\ (Binary64.overlap_31_of_100 =? 0.31)%float = true
  /\ (0.6 * 0.61 + 0.4 * 0.61 =? 0.61)%float = true
  /\ (1 - Binary64.overlap_31_of_100 * 0.5 =? 0.845)%float = true
  /\ (Binary64.compute_weighted_similarity 0.61 0.61 Binary64.overlap_31_of_100
        0.6 0.4 true =? 0.61 * 0.845)%float = true.
Proof. repeat split; vm_compute; reflexivity. Qed.

(** C8: with the context similarity and the two texts (hence the overlap)
    held fixed and a positive idiom weight, a larger idiom similarity never
    gives a smaller pre-penalty base score. *)
Theorem C8_base_score_monotone_in_idiom_sim
    (idiom_weight context_weight context_sim sim1 sim2 : Q)
    (idiom1 idiom2 : string) :
  0 < idiom_weight -> sim1 <= sim2 ->
  Improved.base_score idiom_weight context_weight sim1 context_sim
  <= Improved.base_score idiom_weight context_weight sim2 context_sim
  /\ Improved.compute_weighted_similarity sim1 context_sim idiom1 idiom2
       idiom_weight context_weight false
     <= Improved.compute_weighted_similarity sim2 context_sim idiom1 idiom2
          idiom_weight context_weight false.
Proof.
  intros Hw Hs.
  assert (H : Improved.base_score idiom_weight context_weight sim1 context_sim
              <= Improved.base_score idiom_weight context_weight sim2 context_sim).
  { unfold Improved.base_score. apply Qplus_le_l.
    apply Qmult_le_l; assumption. }
  split; [exact H | exact H].
Qed.

Lemma C8_witness :
  Improved.base_score 0.6 0.4 0.5 0.8 <= Improved.base_score 0.6 0.4 0.9 0.8.
Proof.
  apply (C8_base_score_monotone_in_idiom_sim 0.6 0.4 0.8 0.5 0.9 "A" "X").
  - reflexivity.
  - discriminate.
Defined.

(** ** Loops *)

(** A loop whose body only appends to its accumulator collects what each
    iteration appends. *)
Lemma for_each_collect {X R : Type} (xs : list X)
    (body : X -> list R -> result (list R)) (g : X -> list R) (acc : list R) :
  (forall x acc', x ∈ xs -> body x acc' = Ok (acc' ++ g x)) ->
  for_each xs body acc = Ok (acc ++ (xs ≫= g)).
Proof.
  revert acc. induction xs as [| x xs IH]; intros acc Hbody; cbn [for_each].
  - rewrite app_nil_r. reflexivity.
  - rewrite Hbody by apply list_elem_of_here.
    rewrite IH.
    + rewrite bind_cons, app_assoc. reflexivity.
    + intros y acc' Hy. apply Hbody. apply list_elem_of_further, Hy.
Qed.

Lemma py_index_idiom_at (idioms : list idiom_data) (i : nat) :
  (i < length idioms)%nat -> py_index idioms (Z.of_nat i) = Ok (idiom_at idioms i).
Proof.
  intros Hi. apply py_index_nat.
  destruct (nth_lookup_or_length idioms i
              {| idiom := EmptyString; contexts := []; english_translations := [] |})
    as [H | H]; [exact H | lia].
Qed.

(** ** Stable descending sort *)

Section sorting.

Context {A : Type} (key : A -> Q).





Variable earlier : A -> A -> Prop.



End sorting.



Lemma StronglySorted_concat {A : Type} (R : A -> A -> Prop) (l1 l2 : list A) :
  StronglySorted R l1 -> StronglySorted R l2 ->
  (forall x y, x ∈ l1 -> y ∈ l2 -> R x y) ->
  StronglySorted R (l1 ++ l2).
Proof.
  intros H1 H2 H12. induction H1 as [| x l1 H1 IH Hx]; simpl; [exact H2 |].
  constructor.
  - apply IH. intros a b Ha Hb. apply H12; [apply list_elem_of_further, Ha | exact Hb].
  - apply Forall_app. split; [exact Hx |].
    apply Forall_forall. intros y Hy. apply H12; [apply list_elem_of_here | exact Hy].
Qed.

Lemma fmap_bind_comm {A B C : Type} (f : B -> C) (g : A -> list B) (l : list A) :
  f <$> (l ≫= g) = l ≫= (fun a => f <$> g a).
Proof.
  induction l as [| a l IH]; [reflexivity |].
  rewrite !bind_cons, fmap_app, IH. reflexivity.
Qed.

(** ** Mode A: the pairs that reach the threshold, ranked *)

Section mode_a.

Variables en_idioms target_idioms : list idiom_data.
Variables idiom_only_sims context_sims : nat -> nat -> Q.
Variables min_threshold idiom_weight context_weight : Q.

Let score := pair_score en_idioms target_idioms idiom_only_sims context_sims
               idiom_weight context_weight.
Let record := record_of en_idioms target_idioms idiom_only_sims context_sims
                idiom_weight context_weight.
Let row := retained_row en_idioms target_idioms idiom_only_sims context_sims
             min_threshold idiom_weight context_weight.
Let retained := retained_pairs en_idioms target_idioms idiom_only_sims context_sims
                  min_threshold idiom_weight context_weight.

Lemma all_matches_step_eq (i j : nat) (acc : list Improved.MatchRecord.t) :
  (i < length en_idioms)%nat -> (j < length target_idioms)%nat ->
  Improved.all_matches_step en_idioms target_idioms idiom_only_sims context_sims
    min_threshold idiom_weight context_weight
    i (idiom (idiom_at en_idioms i)) j acc
  = Ok (acc ++ (record <$> if Qgeb (score (i, j)) min_threshold
                           then [(i, j)] else [])).
Proof.
  intros Hi Hj. unfold Improved.all_matches_step.
  rewrite (py_index_idiom_at target_idioms j Hj). cbn [mbind result_mbind result_bind].
  subst score record. unfold pair_score. cbn [fst snd].
  destruct (Qgeb _ min_threshold).
  - rewrite (py_index_idiom_at en_idioms i Hi). cbn [mbind result_mbind result_bind].
    reflexivity.
  - rewrite app_nil_r. reflexivity.
Qed.

(** The double loop never raises and collects the retained pairs in
    first-seen order. *)
Lemma all_matches_loop_eq :
  Improved.all_matches_loop en_idioms target_idioms idiom_only_sims context_sims
    min_threshold idiom_weight context_weight
  = Ok (record <$> retained).
Proof.
  unfold Improved.all_matches_loop.
  rewrite (for_each_collect _ _ (fun i => record <$> row i)).
  - subst retained. unfold retained_pairs. rewrite fmap_bind_comm. reflexivity.
  - intros i acc Hi. apply elem_of_seq in Hi as [_ Hi]. simpl in Hi.
    rewrite (py_index_idiom_at en_idioms i Hi). cbn [mbind result_mbind result_bind].
    rewrite (for_each_collect _ _
               (fun j => record <$> if Qgeb (score (i, j)) min_threshold
                                     then [(i, j)] else [])).
    + subst row. unfold retained_row. rewrite fmap_bind_comm. reflexivity.
    + intros j acc' Hj. apply elem_of_seq in Hj as [_ Hj]. simpl in Hj.
      apply all_matches_step_eq; assumption.
Qed.









End mode_a.



(** ** Mode B: the scan for the best source idiom *)

Lemma for_each_app {X S : Type} (xs ys : list X) (body : X -> S -> result S) (s : S) :
  for_each (xs ++ ys) body s
  = match for_each xs body s with
    | Ok s' => for_each ys body s'
    | Raise e => Raise e
    end.
Proof.
  revert s. induction xs as [| x xs IH]; intros s; simpl; [reflexivity |].
  destruct (body x s); [apply IH | reflexivity].
Qed.

(** A loop that appends one record per iteration builds one record per
    element, each as its iteration specifies. *)
Lemma for_each_records {X R : Type} (P : X -> R -> Prop) (xs : list X)
    (body : X -> list R -> result (list R)) (acc : list R) :
  (forall x acc', x ∈ xs -> exists r, body x acc' = Ok (acc' ++ [r]) /\ P x r) ->
  exists rs, for_each xs body acc = Ok (acc ++ rs) /\ Forall2 P xs rs.
Proof.
  revert acc. induction xs as [| x xs IH]; intros acc Hbody; cbn [for_each].
  - exists []. rewrite app_nil_r. split; [reflexivity | constructor].
  - destruct (Hbody x acc (list_elem_of_here _ _)) as (r & -> & Hr).
    destruct (IH (acc ++ [r])) as (rs & -> & Hrs).
    + intros y acc' Hy. apply Hbody, list_elem_of_further, Hy.
    + exists (r :: rs). rewrite <- app_assoc. split; [reflexivity |].
      constructor; assumption.
Qed.

Lemma py_index_last (idioms : list idiom_data) :
  idioms <> [] ->
  py_index idioms (-1) = Ok (idiom_at idioms (length idioms - 1)).
Proof.
  intros Hne. assert (Hlen : (0 < length idioms)%nat).
  { destruct idioms; [contradiction | simpl; lia]. }
  rewrite <- (py_index_idiom_at idioms (length idioms - 1)) by lia.
  unfold py_index.
  replace (-1 <? 0)%Z with true by reflexivity.
  replace (Z.of_nat (length idioms - 1) <? 0)%Z with false
    by (symmetry; apply Z.ltb_ge; lia).
  replace (Z.of_nat (length idioms) + -1)%Z with (Z.of_nat (length idioms - 1))
    by lia.
  reflexivity.
Qed.

Lemma enumerate_lookup (idioms : list idiom_data) (entry : nat * idiom_data) :
  entry ∈ enumerate idioms ->
  (entry.1 < length idioms)%nat /\ entry.2 = idiom_at idioms entry.1.
Proof.
  unfold enumerate. intros H. destruct entry as [i d].
  apply list_elem_of_lookup in H as [k Hk].
  apply lookup_zip_with_Some in Hk as (a & b & Heq & Ha & Hb).
  injection Heq as -> ->. apply lookup_seq in Ha as [-> Hlt]. simpl.
  split; [exact Hlt |]. symmetry. apply nth_lookup_Some, Hb.
Qed.

Lemma elem_of_enumerate {A : Type} (l : list A) (i : nat) (a : A) :
  (i, a) ∈ enumerate l <-> l !! i = Some a.
Proof.
  unfold enumerate. rewrite list_elem_of_lookup. split.
  - intros [k Hk]. apply lookup_zip_with_Some in Hk as (j & b & Heq & Hj & Hb).
    injection Heq as -> ->. apply lookup_seq in Hj as [-> _]. exact Hb.
  - intros Hi. exists i. apply lookup_zip_with_Some. exists i, a.
    split; [reflexivity |]. split; [| exact Hi].
    apply lookup_seq. split; [reflexivity | eapply lookup_lt_Some, Hi].
Qed.

Section mode_b.

Variables en_idioms target_idioms : list idiom_data.
Variables idiom_only_sims context_sims : nat -> nat -> Q.
Variables idiom_weight context_weight : Q.

Let score := source_score en_idioms target_idioms idiom_only_sims context_sims
               idiom_weight context_weight.
Let inv := scan_inv en_idioms target_idioms idiom_only_sims context_sims
             idiom_weight context_weight.
Let best := first_best en_idioms target_idioms idiom_only_sims context_sims
              idiom_weight context_weight.

Lemma best_step_eq (t k : nat) (st : Improved.best_state) :
  (k < length en_idioms)%nat ->
  Improved.best_step en_idioms idiom_only_sims context_sims idiom_weight
    context_weight t (idiom (idiom_at target_idioms t)) k st
  = Ok (if Qgtb (score t k) st.1.1.1
        then (score t k, Z.of_nat k, idiom_only_sims k t, context_sims k t)
        else st).
Proof.
  intros Hk. destruct st as [[[bs bi] bis] bcs]. unfold Improved.best_step.
  rewrite (py_index_idiom_at en_idioms k Hk). cbn [mbind result_mbind result_bind].
  subst score. unfold source_score, pair_score. cbn [fst snd].
  destruct (Qgtb _ bs); reflexivity.
Qed.

(** The scan over the first [k] source idioms never raises and keeps the
    invariant. *)
Lemma best_scan_prefix (t k : nat) :
  (k <= length en_idioms)%nat ->
  exists st,
    for_each (seq 0 k)
      (Improved.best_step en_idioms idiom_only_sims context_sims idiom_weight
         context_weight t (idiom (idiom_at target_idioms t)))
      (-1, (-1)%Z, 0, 0) = Ok st
    /\ inv t k st.
Proof.
  induction k as [| k IH]; intros Hk.
  - exists (-1, (-1)%Z, 0, 0). split; [reflexivity |].
    left. repeat split. intros i Hi. lia.
  - destruct IH as (st & Hst & Hinv); [lia |].
    rewrite seq_S, for_each_app, Hst. cbn [for_each plus].
    rewrite best_step_eq by lia.
    eexists. split; [reflexivity |].
    destruct st as [[[bs bi] bis] bcs]. cbn [fst].
    destruct (Qgtb (score t k) bs) eqn:Hcmp.
    + apply Qgtb_lt in Hcmp. right. exists k.
      split; [reflexivity |]. split; [reflexivity |].
      split; [reflexivity |]. split; [reflexivity |].
      destruct Hinv as [(_ & -> & _ & _ & Hall)
                       | (b & _ & -> & _ & _ & Hpos & Hb & Hmax & Hfirst)].
      * split; [exact Hcmp |]. split; [lia |]. split.
        -- intros i Hi. destruct (decide (i = k)) as [-> | Hne];
             [apply Qle_refl |].
           apply Qlt_le_weak. eapply Qle_lt_trans; [apply Hall; lia | exact Hcmp].
        -- intros i Hi. eapply Qle_lt_trans; [apply Hall; lia | exact Hcmp].
      * split; [eapply Qlt_trans; eassumption |]. split; [lia |]. split.
        -- intros i Hi. destruct (decide (i = k)) as [-> | Hne];
             [apply Qle_refl |].
           apply Qlt_le_weak. eapply Qle_lt_trans; [apply Hmax; lia | exact Hcmp].
        -- intros i Hi. eapply Qle_lt_trans; [apply Hmax; lia | exact Hcmp].
    + apply Qgtb_le in Hcmp.
      destruct Hinv as [(-> & -> & -> & -> & Hall)
                       | (b & -> & -> & -> & -> & Hpos & Hb & Hmax & Hfirst)].
      * left. repeat split. intros i Hi.
        destruct (decide (i = k)) as [-> | Hne]; [exact Hcmp | apply Hall; lia].
      * right. exists b. repeat split; try assumption; [lia |].
        intros i Hi.
        destruct (decide (i = k)) as [-> | Hne]; [exact Hcmp | apply Hmax; lia].
Qed.

Lemma first_best_unique (t k b b' : nat) :
  best t k b -> best t k b' -> b = b'.
Proof.
  intros (Hb & Hmax & Hfirst) (Hb' & Hmax' & Hfirst').
  destruct (lt_eq_lt_dec b b') as [[Hlt | Heq] | Hgt]; [| exact Heq |].
  - specialize (Hfirst' b Hlt). specialize (Hmax b' Hb').
    exfalso. apply (Qlt_irrefl (score t b)). eapply Qlt_le_trans; eassumption.
  - specialize (Hfirst b' Hgt). specialize (Hmax' b Hb).
    exfalso. apply (Qlt_irrefl (score t b')). eapply Qlt_le_trans; eassumption.
Qed.

(** With at least one source idiom, the body of the loop appends exactly
    one record for its target idiom. *)
Lemma target_best_step_eq (entry : nat * idiom_data)
    (acc : list Improved.BestMatch.t) :
  en_idioms <> [] -> entry ∈ enumerate target_idioms ->
  exists r,
    Improved.target_best_step en_idioms idiom_only_sims context_sims idiom_weight
      context_weight entry acc = Ok (acc ++ [r])
    /\ best_record_spec en_idioms target_idioms idiom_only_sims context_sims
         idiom_weight context_weight entry r.
Proof.
  intros Hne Hentry. apply enumerate_lookup in Hentry as [Ht Hd].
  destruct entry as [t d]. cbn [fst snd] in *. subst d.
  unfold Improved.target_best_step, Improved.best_scan, range.
  destruct (best_scan_prefix t (length en_idioms) (Nat.le_refl _))
    as (st & -> & Hinv).
  cbn [mbind result_mbind result_bind].
  destruct st as [[[bs bi] bis] bcs].
  destruct Hinv as [(-> & -> & -> & -> & Hall)
                   | (b & -> & -> & -> & -> & Hpos & Hbest)].
  - rewrite (py_index_last en_idioms Hne). cbn [mbind result_mbind result_bind].
    eexists. split; [reflexivity |].
    split; [reflexivity |]. split; [intros _; repeat split |].
    intros b (Hb & _) Hpos. cbn [fst] in *. exfalso.
    apply (Qlt_irrefl (-1)). eapply Qlt_le_trans; [exact Hpos | apply Hall, Hb].
  - destruct Hbest as (Hb & Hmax & Hfirst).
    rewrite (py_index_idiom_at en_idioms b Hb). cbn [mbind result_mbind result_bind].
    eexists. split; [reflexivity |].
    split; [reflexivity |]. split.
    + intros Hall. cbn [fst] in *. exfalso.
      apply (Qlt_irrefl (-1)). eapply Qlt_le_trans; [exact Hpos | apply Hall, Hb].
    + intros b' Hbest' _. cbn [fst] in *.
      rewrite (first_best_unique t (length en_idioms) b' b Hbest'
                 (conj Hb (conj Hmax Hfirst))).
      repeat split.
Qed.

(** With at least one source idiom Mode B never raises and records one
    match per target idiom, in target order. *)
Lemma target_best_matches_loop_eq :
  en_idioms <> [] ->
  exists rs,
    Improved.target_best_matches_loop en_idioms target_idioms idiom_only_sims
      context_sims idiom_weight context_weight = Ok rs
    /\ Forall2 (best_record_spec en_idioms target_idioms idiom_only_sims
                  context_sims idiom_weight context_weight)
         (enumerate target_idioms) rs.
Proof.
  intros Hne. unfold Improved.target_best_matches_loop.
  destruct (for_each_records
              (best_record_spec en_idioms target_idioms idiom_only_sims
                 context_sims idiom_weight context_weight)
              (enumerate target_idioms)
              (Improved.target_best_step en_idioms idiom_only_sims context_sims
                 idiom_weight context_weight) [])
    as (rs & Hrs & Hspec).
  - intros entry acc Hentry. apply target_best_step_eq; assumption.
  - exists rs. split; [exact Hrs | exact Hspec].
Qed.

End mode_b.

(** Without any source idiom the first target idiom already fails: the
    scan leaves [best_en_idx = -1] and the lookup raises. *)
Lemma target_best_matches_loop_no_source
    (target_idioms : list idiom_data)
    (idiom_only_sims context_sims : nat -> nat -> Q)
    (idiom_weight context_weight : Q) :
  target_idioms <> [] ->
  Improved.target_best_matches_loop [] target_idioms idiom_only_sims context_sims
    idiom_weight context_weight = Raise IndexError.
Proof.
  intros Hne. destruct target_idioms as [| t ts]; [contradiction |].
  unfold Improved.target_best_matches_loop, enumerate. cbn [length seq zip zip_with for_each].
  unfold Improved.target_best_step, Improved.best_scan, range.
  cbn [length seq for_each mbind result_mbind result_bind].
  rewrite py_index_nil. reflexivity.
Qed.

(** Without any target idiom the loop body never runs. *)
Lemma target_best_matches_loop_no_target
    (en_idioms : list idiom_data)
    (idiom_only_sims context_sims : nat -> nat -> Q)
    (idiom_weight context_weight : Q) :
  Improved.target_best_matches_loop en_idioms [] idiom_only_sims context_sims
    idiom_weight context_weight = Ok [].
Proof. reflexivity. Qed.

(** The body of the scan replaces the state only by a strictly greater
    score, together with the index it was found at. *)
Lemma best_step_replaces_on_greater
    (en_idioms : list idiom_data) (idiom_only_sims context_sims : nat -> nat -> Q)
    (idiom_weight context_weight : Q) (t : nat) (tgt_idiom : string) (k : nat)
    (st st' : Improved.best_state) :
  Improved.best_step en_idioms idiom_only_sims context_sims idiom_weight
    context_weight t tgt_idiom k st = Ok st' ->
  st' = st \/ (st.1.1.1 < st'.1.1.1 /\ st'.1.1.2 = Z.of_nat k).
Proof.
  destruct st as [[[bs bi] bis] bcs]. unfold Improved.best_step.
  destruct (py_index en_idioms (Z.of_nat k)) as [en | e];
    cbn [mbind result_mbind result_bind]; [| discriminate].
  destruct (Qgtb _ bs) eqn:Hcmp; intros H; injection H as <-.
  - right. apply Qgtb_lt in Hcmp. split; [exact Hcmp | reflexivity].
  - left. reflexivity.
Qed.

(** ** The claims on Mode B *)

(** C10: the scan starts from the index -1 and replaces it only on a
    strictly greater score; with no source idiom and at least one target
    idiom the index is still -1 after the scan, the lookup of the source
    idiom at -1 raises IndexError, and the loop fails before it has
    produced any record: it returns no list of records at all. *)
Theorem C10_empty_source_fails_before_any_record
    (target_idioms : list idiom_data)
    (idiom_only_sims context_sims : nat -> nat -> Q)
    (idiom_weight context_weight : Q) :
  target_idioms <> [] ->
  (forall (t : nat) (tgt_idiom : string),
     Improved.best_scan [] idiom_only_sims context_sims idiom_weight
       context_weight t tgt_idiom = Ok (-1, (-1)%Z, 0, 0))
  /\ (forall en_idioms t tgt_idiom k st st',
        Improved.best_step en_idioms idiom_only_sims context_sims idiom_weight
          context_weight t tgt_idiom k st = Ok st' ->
        st' = st \/ (st.1.1.1 < st'.1.1.1 /\ st'.1.1.2 = Z.of_nat k))
  /\ py_index (@nil idiom_data) (-1) = Raise IndexError
  /\ Improved.target_best_matches_loop [] target_idioms idiom_only_sims
       context_sims idiom_weight context_weight = Raise IndexError
  /\ (forall rs,
        Improved.target_best_matches_loop [] target_idioms idiom_only_sims
          context_sims idiom_weight context_weight <> Ok rs).
Proof.
  intros Hne.
  split; [reflexivity |].
  split; [intros en t tgt_idiom k st st';
          apply best_step_replaces_on_greater |].
  split; [apply py_index_nil |].
  pose proof (target_best_matches_loop_no_source target_idioms idiom_only_sims
                context_sims idiom_weight context_weight Hne) as H.
  split; [exact H |]. intros rs. rewrite H. discriminate.
Qed.

Lemma C10_witness :
  Improved.target_best_matches_loop [] [sample_idiom "potkaista tyhjaa"]
    (fun _ _ => 0.9) (fun _ _ => 0.8) 0.6 0.4 = Raise IndexError.
Proof.
  apply (C10_empty_source_fails_before_any_record
           [sample_idiom "potkaista tyhjaa"]
           (fun _ _ => 0.9) (fun _ _ => 0.8) 0.6 0.4).
  discriminate.
Defined.

(** C5, as the code has it: Mode B has no check of its own for an empty
    collection. With no target idiom the loop body never runs: nothing is
    raised and the result is the empty list of records. With no source
    idiom and at least one target idiom the lookup of the source idiom at
    index -1 raises IndexError. In both cases no match record is
    returned. *)
Theorem C5_mode_b_on_empty_collections
    (en_idioms target_idioms : list idiom_data)
    (idiom_only_sims context_sims : nat -> nat -> Q)
    (idiom_weight context_weight : Q) :
  (target_idioms = [] ->
   Improved.target_best_matches_loop en_idioms target_idioms idiom_only_sims
     context_sims idiom_weight context_weight = Ok [])
  /\ (en_idioms = [] -> target_idioms <> [] ->
      Improved.target_best_matches_loop en_idioms target_idioms idiom_only_sims
        context_sims idiom_weight context_weight = Raise IndexError)
  /\ (en_idioms = [] \/ target_idioms = [] ->
      forall rs,
        Improved.target_best_matches_loop en_idioms target_idioms idiom_only_sims
          context_sims idiom_weight context_weight = Ok rs ->
        rs = []).
Proof.
  split; [intros ->; apply target_best_matches_loop_no_target |].
  split; [intros -> Hne; apply target_best_matches_loop_no_source, Hne |].
  intros H rs Hrs. destruct (decide (target_idioms = [])) as [-> | Hne].
  - rewrite target_best_matches_loop_no_target in Hrs. injection Hrs as <-.
    reflexivity.
  - destruct H as [-> | ->]; [| contradiction].
    rewrite target_best_matches_loop_no_source in Hrs by exact Hne.
    discriminate Hrs.
Qed.

Lemma C5_witness :
  Improved.target_best_matches_loop [sample_idiom "kick the bucket"] []
    (fun _ _ => 0.9) (fun _ _ => 0.8) 0.6 0.4 = Ok []
  /\ Improved.target_best_matches_loop [] [sample_idiom "casser sa pipe"]
       (fun _ _ => 0.9) (fun _ _ => 0.8) 0.6 0.4 = Raise IndexError.
Proof.
  split.
  - apply (C5_mode_b_on_empty_collections [sample_idiom "kick the bucket"] []
             (fun _ _ => 0.9) (fun _ _ => 0.8) 0.6 0.4).
    reflexivity.
  - apply (C5_mode_b_on_empty_collections [] [sample_idiom "casser sa pipe"]
             (fun _ _ => 0.9) (fun _ _ => 0.8) 0.6 0.4).
    + reflexivity.
    + discriminate.
Defined.

(** C5 as stated fails: with an empty target collection Mode B raises
    nothing, it returns the empty list. *)
Lemma C5_counterexample :
  ~ (exists e : py_error,
       Improved.target_best_matches_loop [sample_idiom "kick the bucket"] []
         (fun _ _ => 0.9) (fun _ _ => 0.8) 0.6 0.4 = Raise e).
Proof. intros [e He]. vm_compute in He. discriminate He. Qed.

(** With at least one source idiom Mode B records exactly one match per
    target idiom, whatever the scores: no threshold is applied. When some
    source idiom scores above -1, the match is the first-seen source
    idiom of the highest score. *)
Lemma mode_b_one_record_per_target
    (en_idioms target_idioms : list idiom_data)
    (idiom_only_sims context_sims : nat -> nat -> Q)
    (idiom_weight context_weight : Q) :
  en_idioms <> [] ->
  exists rs,
    Improved.target_best_matches_loop en_idioms target_idioms idiom_only_sims
      context_sims idiom_weight context_weight = Ok rs
    /\ length rs = length target_idioms
    /\ forall t r, rs !! t = Some r ->
         best_record_spec en_idioms target_idioms idiom_only_sims context_sims
           idiom_weight context_weight (t, idiom_at target_idioms t) r.
Proof.
  intros Hne.
  destruct (target_best_matches_loop_eq en_idioms target_idioms idiom_only_sims
              context_sims idiom_weight context_weight Hne) as (rs & Hrs & Hspec).
  exists rs. split; [exact Hrs |].
  pose proof (Forall2_length _ _ _ Hspec) as Hlen.
  unfold enumerate in Hlen. rewrite length_zip_with, length_seq, Nat.min_id in Hlen.
  split; [symmetry; exact Hlen |].
  intros t r Hr.
  destruct (Forall2_lookup_r _ _ _ _ _ Hspec Hr) as (entry & Hentry & Hok).
  assert (Hin : entry ∈ enumerate target_idioms)
    by (apply list_elem_of_lookup; exists t; exact Hentry).
  apply enumerate_lookup in Hin as [_ Hd].
  unfold enumerate in Hentry.
  apply lookup_zip_with_Some in Hentry as (a & d & -> & Ha & _).
  apply lookup_seq in Ha as [-> _]. cbn [fst snd] in Hd. subst d. exact Hok.
Qed.

(** ** The argmax of the Finnish/Japanese analysis *)

Lemma argmax_from_first_max (l pre : list Q) (bi : nat) (b : Q) :
  pre !! bi = Some b ->
  (forall j y, pre !! j = Some y -> y <= b) ->
  (forall j y, (j < bi)%nat -> pre !! j = Some y -> y < b) ->
  first_max (pre ++ l) (argmax_from bi b (length pre) l).
Proof.
  revert pre bi b. induction l as [| x l IH]; intros pre bi b Hb Hmax Hfirst.
  - rewrite app_nil_r. exists b. auto.
  - cbn [argmax_from]. rewrite cons_middle, app_assoc.
    replace (S (length pre)) with (length (pre ++ [x]))
      by (rewrite length_app; simpl; lia).
    destruct (Qgtb x b) eqn:Hcmp.
    + apply Qgtb_lt in Hcmp. apply IH.
      * rewrite lookup_app_r by lia. rewrite Nat.sub_diag. reflexivity.
      * intros j y Hj. apply lookup_app_Some in Hj as [Hj | [_ Hj]].
        -- apply Qlt_le_weak. eapply Qle_lt_trans; [eapply Hmax, Hj | exact Hcmp].
        -- apply list_lookup_singleton_Some in Hj as [_ ->]. apply Qle_refl.
      * intros j y Hlt Hj. rewrite lookup_app_l in Hj by exact Hlt.
        eapply Qle_lt_trans; [eapply Hmax, Hj | exact Hcmp].
    + apply Qgtb_le in Hcmp. pose proof (lookup_lt_Some _ _ _ Hb) as Hbi.
      apply IH.
      * rewrite lookup_app_l by exact Hbi. exact Hb.
      * intros j y Hj. apply lookup_app_Some in Hj as [Hj | [_ Hj]].
        -- eapply Hmax, Hj.
        -- apply list_lookup_singleton_Some in Hj as [_ ->]. exact Hcmp.
      * intros j y Hlt Hj. rewrite lookup_app_l in Hj by lia.
        eapply Hfirst; eassumption.
Qed.

(** [np.argmax] returns the first index of the maximum of a non-empty
    sequence. *)
Lemma np_argmax_first_max (l : list Q) :
  l <> [] -> exists b, np_argmax l = Ok b /\ first_max l b.
Proof.
  intros Hne. destruct l as [| x l]; [contradiction |].
  exists (argmax_from 0 x 1 l). split; [reflexivity |].
  apply (argmax_from_first_max l [x] 0 x).
  - reflexivity.
  - intros j y Hj. apply list_lookup_singleton_Some in Hj as [_ ->]. apply Qle_refl.
  - intros j y Hlt. lia.
Qed.

Lemma range_row_lookup (f : nat -> Q) (n i : nat) :
  (i < n)%nat -> (f <$> range n) !! i = Some (f i).
Proof.
  intros Hi. unfold range. rewrite list_lookup_fmap, lookup_seq_lt by exact Hi.
  reflexivity.
Qed.

Lemma range_row_length (f : nat -> Q) (n : nat) : length (f <$> range n) = n.
Proof. unfold range. rewrite length_fmap, length_seq. reflexivity. Qed.

(** On a non-empty row [np.argmax] returns the first index of the
    maximum. *)
Lemma best_index_spec (f : nat -> Q) (n : nat) :
  (0 < n)%nat ->
  np_argmax (f <$> range n) = Ok (best_index f n)
  /\ (best_index f n < n)%nat
  /\ (forall i, (i < n)%nat -> f i <= f (best_index f n))
  /\ (forall i, (i < best_index f n)%nat -> f i < f (best_index f n)).
Proof.
  intros Hn. unfold best_index.
  assert (Hne : f <$> range n <> []).
  { intros E. apply (f_equal length) in E. rewrite range_row_length in E.
    simpl in E. lia. }
  destruct (np_argmax_first_max _ Hne) as (b & -> & m & Hm & Hmax & Hfirst).
  assert (Hb : (b < n)%nat).
  { apply lookup_lt_Some in Hm. rewrite range_row_length in Hm. exact Hm. }
  rewrite (range_row_lookup f n b Hb) in Hm. injection Hm as <-.
  split; [reflexivity |]. split; [exact Hb |]. split.
  - intros i Hi. eapply Hmax, range_row_lookup, Hi.
  - intros i Hi. eapply Hfirst; [exact Hi |]. apply range_row_lookup. lia.
Qed.

Lemma bind_singleton_fmap {A B : Type} (f : A -> B) (l : list A) :
  l ≫= (fun x => [f x]) = f <$> l.
Proof.
  induction l as [| x l IH]; [reflexivity |].
  rewrite bind_cons, fmap_cons, IH. reflexivity.
Qed.

Lemma for_each_ext {X S : Type} (xs : list X) (body1 body2 : X -> S -> result S)
    (s : S) :
  (forall x s', x ∈ xs -> body1 x s' = body2 x s') ->
  for_each xs body1 s = for_each xs body2 s.
Proof.
  revert s. induction xs as [| x xs IH]; intros s Hext; cbn [for_each];
    [reflexivity |].
  rewrite Hext by apply list_elem_of_here.
  destruct (body2 x s); [| reflexivity].
  apply IH. intros y s' Hy. apply Hext, list_elem_of_further, Hy.
Qed.



Lemma matrix_row_ok (m : matrix) (i : nat) :
  (i < n_rows m)%nat -> matrix_row m i = Ok (entries m i <$> range (n_cols m)).
Proof. intros Hi. unfold matrix_row. apply Nat.ltb_lt in Hi. rewrite Hi. reflexivity. Qed.

Lemma matrix_column_ok (m : matrix) (j : nat) :
  (j < n_cols m)%nat ->
  matrix_column m j = Ok ((fun i => entries m i j) <$> range (n_rows m)).
Proof.
  intros Hj. unfold matrix_column. apply Nat.ltb_lt in Hj. rewrite Hj. reflexivity.
Qed.

(** What [cosine_similarity] returns has at least one row and one
    column. *)
Lemma cosine_similarity_ok (n_X n_Y : nat) (cosine : nat -> nat -> Q) :
  (0 < n_X)%nat -> (0 < n_Y)%nat ->
  cosine_similarity n_X n_Y cosine
  = Ok {| n_rows := n_X; n_cols := n_Y; entries := cosine |}.
Proof.
  intros HX HY. unfold cosine_similarity.
  destruct n_X; [lia |]. destruct n_Y; [lia |]. reflexivity.
Qed.

Lemma cosine_similarity_shape (n_X n_Y : nat) (cosine : nat -> nat -> Q)
    (m : matrix) :
  cosine_similarity n_X n_Y cosine = Ok m ->
  (0 < n_X)%nat /\ (0 < n_Y)%nat
  /\ m = {| n_rows := n_X; n_cols := n_Y; entries := cosine |}.
Proof.
  unfold cosine_similarity. destruct n_X; [discriminate |].
  destruct n_Y; [discriminate |]. simpl. intros Heq. injection Heq as <-.
  repeat split; lia.
Qed.

(** With a matrix of at least one row, no more rows than there are source
    idioms and a column for every target idiom, the best-match loop of
    the Finnish/Japanese analysis records one match per target idiom. *)
Lemma best_matches_loop_eq (en_idioms target_idioms : list idiom_data)
    (similarities : matrix) :
  (0 < n_rows similarities)%nat ->
  (n_rows similarities <= length en_idioms)%nat ->
  (length target_idioms <= n_cols similarities)%nat ->
  FinnishJapanese.best_matches_loop en_idioms target_idioms similarities
  = Ok (best_record_of en_idioms similarities <$> enumerate target_idioms).
Proof.
  intros Hrows Hen Htgt. unfold FinnishJapanese.best_matches_loop.
  rewrite (for_each_collect _ _ (fun e => [best_record_of en_idioms similarities e])).
  - rewrite bind_singleton_fmap. reflexivity.
  - intros [t d] acc Hin. apply elem_of_enumerate in Hin.
    apply lookup_lt_Some in Hin.
    unfold FinnishJapanese.best_match_step.
    rewrite matrix_column_ok by lia. cbn [mbind result_mbind result_bind].
    destruct (best_index_spec (fun i => entries similarities i t)
                (n_rows similarities) Hrows) as (Harg & Hb & _).
    rewrite Harg. cbn [mbind result_mbind result_bind].
    rewrite (py_index_nat _ _ _
               (range_row_lookup (fun i => entries similarities i t) _ _ Hb)).
    cbn [mbind result_mbind result_bind].
    assert (Hlt : (best_index (fun i => entries similarities i t)
                     (n_rows similarities) < length en_idioms)%nat) by lia.
    rewrite (py_index_idiom_at en_idioms _ Hlt).
    reflexivity.
Qed.

(** For a matrix that holds one row per source idiom, the loop is the one
    written over the entries of the matrix alone. *)
Lemma best_matches_loop_aligned (en_idioms target_idioms : list idiom_data)
    (similarities : matrix) :
  n_rows similarities = length en_idioms ->
  (length target_idioms <= n_cols similarities)%nat ->
  FinnishJapanese.best_matches_loop en_idioms target_idioms similarities
  = FinnishJapanese.target_best_matches_loop en_idioms target_idioms
      (entries similarities).
Proof.
  intros Hrows Htgt.
  unfold FinnishJapanese.best_matches_loop, FinnishJapanese.target_best_matches_loop.
  apply for_each_ext. intros [t d] acc Hin. apply elem_of_enumerate in Hin.
  apply lookup_lt_Some in Hin.
  unfold FinnishJapanese.best_match_step, FinnishJapanese.target_best_step,
    FinnishJapanese.column.
  rewrite matrix_column_ok by lia. rewrite Hrows. reflexivity.
Qed.

(** In binary64 too the default weights give two similarities of -1 the
    score -1, which does not exceed the initial [best_score]. *)
Remark initial_score_tie_binary64 :
  (0.6 * -1 + 0.4 * -1 =? -1)%float = true
  /\ (-1 <? 0.6 * -1 + 0.4 * -1)%float = false.
Proof. split; vm_compute; reflexivity. Qed.

(** C3 holds of the improved Mode B only while some source idiom scores
    above the initial [best_score = -1]. Two source idioms that both score
    exactly -1 for the target idiom tie for the highest score; the scan
    never replaces the initial index -1, the lookup at -1 takes the last
    source idiom, and the record carries the initial similarities 0. The
    argmax of the Finnish/Japanese analysis takes the first source idiom
    on the same input. *)
Theorem C3_tie_at_initial_score_selects_last_source :
  let en_idioms := [sample_idiom "spill the beans"; sample_idiom "kick the bucket"] in
  let target_idioms := [sample_idiom "casser sa pipe"] in
  let sims := fun _ _ : nat => -1 in
  source_score en_idioms target_idioms sims sims 0.6 0.4 0 0 == -1
  /\ source_score en_idioms target_idioms sims sims 0.6 0.4 0 1 == -1
  /\ (exists r,
        Improved.target_best_matches_loop en_idioms target_idioms sims sims 0.6 0.4
        = Ok [r]
        /\ Improved.BestMatch.best_english_match r = "kick the bucket"%string
        /\ Improved.BestMatch.weighted_similarity r = -1
        /\ Improved.BestMatch.idiom_only_similarity r = 0
        /\ Improved.BestMatch.context_similarity r = 0)
  /\ (exists r,
        FinnishJapanese.target_best_matches_loop en_idioms target_idioms sims
        = Ok [r]
        /\ FinnishJapanese.BestMatch.best_english_match r = "spill the beans"%string
        /\ FinnishJapanese.BestMatch.similarity r = -1).
Proof.
  split; [vm_compute; reflexivity |].
  split; [vm_compute; reflexivity |].
  split; eexists; (split; [vm_compute; reflexivity |]); repeat split.
Qed.

(** ** The statistics on an empty score sequence *)

Lemma py_truediv_nonzero (count n : nat) :
  (0 < n)%nat -> py_truediv count n = Ok (Qnat count / Qnat n).
Proof. intros Hn. destruct n; [lia | reflexivity]. Qed.

(** On a non-empty sequence the distribution loop never raises and prints
    one line per threshold. *)
Lemma best_distribution_nonempty (best_weighted : list Q) :
  best_weighted <> [] ->
  Improved.best_distribution best_weighted
  = Ok ((fun thresh =>
           (thresh, count_ge best_weighted thresh,
            Qnat (count_ge best_weighted thresh) / Qnat (length best_weighted) * 100))
          <$> Improved.thresholds).
Proof.
  intros Hne. unfold Improved.best_distribution.
  rewrite (for_each_collect _ _
             (fun thresh =>
                [(thresh, count_ge best_weighted thresh,
                  Qnat (count_ge best_weighted thresh)
                  / Qnat (length best_weighted) * 100)])).
  - reflexivity.
  - intros thresh acc _. rewrite py_truediv_nonzero; [reflexivity |].
    destruct best_weighted; [contradiction | simpl; lia].
Qed.

(** C4 does not hold of the best-match statistics: on an empty sequence
    of best-match scores [np.min] raises ValueError, and the loop over the
    thresholds divides the count by [len(best_weighted) = 0] and raises
    ZeroDivisionError, in the improved analysis and in the English-French
    one alike; the whole improved analysis of an empty target collection
    ends in that ValueError. The statistics over the matches above the
    threshold are guarded by [if weighted_scores:] and are skipped on an
    empty list, and the all-pairs distribution, whose count is a numpy
    integer, reports zero counts with a [nan] percentage. *)
Theorem C4_best_match_statistics_raise_on_empty :
  Improved.best_match_statistics [] = Raise ValueError
  /\ Improved.best_distribution [] = Raise ZeroDivisionError
  /\ CrossLingual.best_distribution [] = Raise ZeroDivisionError
  /\ (forall en_idioms idiom_only_sims context_sims min_threshold idiom_weight
        context_weight,
        Improved.analyze_language_pair en_idioms [] idiom_only_sims context_sims
          min_threshold idiom_weight context_weight = Raise ValueError)
  /\ Improved.threshold_statistics [] = None
  /\ CrossLingual.all_pairs_distribution []
     = (fun thresh => (thresh, O, NaN)) <$> CrossLingual.thresholds.
Proof.
  split; [reflexivity |]. split; [reflexivity |]. split; [reflexivity |].
  split; [| split; reflexivity].
  intros en_idioms idiom_only_sims context_sims min_threshold idiom_weight
    context_weight.
  unfold Improved.analyze_language_pair.
  rewrite all_matches_loop_eq. cbn [mbind result_mbind result_bind].
  rewrite target_best_matches_loop_no_target. reflexivity.
Qed.

(** ** The semantic matcher *)

Section ascending_sort.

Context {A : Type} (key : A -> Q).

Lemma insert_asc_perm (x : A) (l : list A) : insert_asc key x l ≡ₚ x :: l.
Proof.
  induction l as [| y l IH]; simpl; [reflexivity |].
  destruct (Qgtb (key x) (key y)); [| reflexivity].
  rewrite IH. apply Permutation_swap.
Qed.

Lemma sorted_asc_perm (l : list A) : sorted_asc key l ≡ₚ l.
Proof.
  induction l as [| x l IH]; simpl; [reflexivity |].
  rewrite insert_asc_perm, IH. reflexivity.
Qed.

Lemma insert_asc_sorted (x : A) (l : list A) :
  StronglySorted (fun a b => key a <= key b) l ->
  StronglySorted (fun a b => key a <= key b) (insert_asc key x l).
Proof.
  induction 1 as [| y l Hs IH Hy]; simpl.
  - repeat constructor.
  - destruct (Qgtb (key x) (key y)) eqn:Hk.
    + apply Qgtb_lt in Hk. constructor; [exact IH |].
      rewrite insert_asc_perm. constructor; [apply Qlt_le_weak, Hk | exact Hy].
    + apply Qgtb_le in Hk. constructor; [constructor; assumption |].
      constructor; [exact Hk |].
      eapply Forall_impl; [exact Hy |].
      intros z Hz. simpl in Hz. eapply Qle_trans; eassumption.
Qed.

Lemma sorted_asc_sorted (l : list A) :
  StronglySorted (fun a b => key a <= key b) (sorted_asc key l).
Proof.
  induction l as [| x l IH]; simpl; [constructor |].
  apply insert_asc_sorted, IH.
Qed.

End ascending_sort.

Lemma StronglySorted_reverse {A : Type} (R : A -> A -> Prop) (l : list A) :
  StronglySorted R l -> StronglySorted (fun a b => R b a) (reverse l).
Proof.
  induction 1 as [| x l Hs IH Hx].
  - constructor.
  - rewrite reverse_cons. apply StronglySorted_concat; [exact IH | repeat constructor |].
    intros a b Ha Hb. apply list_elem_of_singleton in Hb. subst b.
    rewrite elem_of_reverse in Ha. rewrite Forall_forall in Hx. apply Hx, Ha.
Qed.




Lemma for_each_fmap {X Y S : Type} (f : X -> Y) (xs : list X)
    (body : Y -> S -> result S) (s : S) :
  for_each (f <$> xs) body s = for_each xs (fun x => body (f x)) s.
Proof.
  revert s. induction xs as [| x xs IH]; intros s; [reflexivity |].
  rewrite fmap_cons. cbn [for_each]. destruct (body (f x) s); [apply IH | reflexivity].
Qed.

Section find_similar_mwes.

Variable foreign_mwes : list string.
Variable similarity_matrix : nat -> nat -> Q.
Variable threshold : Q.
Variable top_k : nat.


Lemma row_lookup (i j : nat) (v : Q) :
  SemanticMatcher.row foreign_mwes similarity_matrix i !! j = Some v
  <-> (j < length foreign_mwes)%nat /\ v = similarity_matrix i j.
Proof.
  unfold SemanticMatcher.row, range. rewrite list_lookup_fmap. split.
  - intros H. destruct (seq 0 (length foreign_mwes) !! j) as [k |] eqn:Hk;
      [| discriminate H].
    apply lookup_seq in Hk as [-> Hlt]. injection H as <-. auto.
  - intros [Hlt ->]. rewrite lookup_seq_lt by exact Hlt. reflexivity.
Qed.



End find_similar_mwes.



(** On an empty list of English idioms the first access
    [english_idioms[0]] raises. *)
Lemma find_similar_mwes_no_idiom (foreign_mwes : list string)
    (similarity_matrix : nat -> nat -> Q) (threshold : Q) (top_k : nat) :
  SemanticMatcher.find_similar_mwes foreign_mwes similarity_matrix threshold top_k
    (SemanticMatcher.Texts []) = Raise IndexError.
Proof. reflexivity. Qed.

(** * Further properties of the code *)

(** ** The lexical overlap at its extremes *)

Lemma Qnat_ratio_one (n m : nat) :
  (0 < m)%nat -> Qnat n / Qnat m == 1 -> n = m.
Proof.
  intros Hm H. pose proof (Qnat_pos m Hm) as Hpos.
  assert (Hq : Qnat n == Qnat m).
  { rewrite <- (Qmult_1_l (Qnat m)), <- H. field.
    intros E. rewrite E in Hpos. exact (Qlt_irrefl _ Hpos). }
  unfold Qnat, Qeq in Hq. simpl in Hq. lia.
Qed.

Lemma Qnat_ratio_zero (n m : nat) :
  (0 < m)%nat -> Qnat n / Qnat m == 0 -> n = O.
Proof.
  intros Hm H. pose proof (Qnat_pos m Hm) as Hpos.
  assert (Hq : Qnat n == 0).
  { rewrite <- (Qmult_0_l (Qnat m)), <- H. field.
    intros E. rewrite E in Hpos. exact (Qlt_irrefl _ Hpos). }
  unfold Qnat, Qeq in Hq. simpl in Hq. lia.
Qed.

(** The overlap is 1.0 exactly when the two texts have the same,
    non-empty, set of tokens. *)
Theorem overlap_one_iff_same_tokens (idiom1 idiom2 : string) :
  Improved.calculate_lexical_overlap idiom1 idiom2 == 1
  <-> Improved.get_tokens idiom1 = Improved.get_tokens idiom2
      /\ Improved.get_tokens idiom1 <> ∅.
Proof.
  split.
  - intros H.
    destruct (decide (Improved.get_tokens idiom1 = ∅)) as [E1 | N1].
    { rewrite overlap_empty in H by (left; exact E1). discriminate H. }
    destruct (decide (Improved.get_tokens idiom2 = ∅)) as [E2 | N2].
    { rewrite overlap_empty in H by (right; exact E2). discriminate H. }
    destruct (overlap_jaccard idiom1 idiom2 N1 N2) as [Hj Hpos].
    rewrite Hj in H. unfold jaccard in H.
    apply Qnat_ratio_one in H; [| exact Hpos].
    assert (Heq : Improved.get_tokens idiom1 ∩ Improved.get_tokens idiom2
                  = Improved.get_tokens idiom1 ∪ Improved.get_tokens idiom2).
    { apply set_subseteq_size_eq; [| lia].
      etrans; [apply intersection_subseteq_l | apply union_subseteq_l]. }
    split; [| exact N1]. apply set_eq. intros w. split; intros Hw.
    + assert (Hu : w ∈ Improved.get_tokens idiom1 ∪ Improved.get_tokens idiom2)
        by (apply elem_of_union; left; exact Hw).
      rewrite <- Heq in Hu. apply elem_of_intersection in Hu as [_ Hu]. exact Hu.
    + assert (Hu : w ∈ Improved.get_tokens idiom1 ∪ Improved.get_tokens idiom2)
        by (apply elem_of_union; right; exact Hw).
      rewrite <- Heq in Hu. apply elem_of_intersection in Hu as [Hu _]. exact Hu.
  - intros [Heq Hne].
    unfold Improved.calculate_lexical_overlap. rewrite <- Heq.
    exact (overlap_self idiom1 Hne).
Qed.

(** The overlap is 0.0 exactly when the two texts share no token. *)
Theorem overlap_zero_iff_no_shared_token (idiom1 idiom2 : string) :
  Improved.calculate_lexical_overlap idiom1 idiom2 == 0
  <-> Improved.get_tokens idiom1 ∩ Improved.get_tokens idiom2 = ∅.
Proof.
  destruct (decide (Improved.get_tokens idiom1 = ∅)) as [E1 | N1].
  { rewrite overlap_empty by (left; exact E1). rewrite E1.
    split; [intros _ | reflexivity].
    apply set_eq. intros w. rewrite elem_of_intersection, elem_of_empty. tauto. }
  destruct (decide (Improved.get_tokens idiom2 = ∅)) as [E2 | N2].
  { rewrite overlap_empty by (right; exact E2). rewrite E2.
    split; [intros _ | reflexivity].
    apply set_eq. intros w. rewrite elem_of_intersection, elem_of_empty. tauto. }
  destruct (overlap_jaccard idiom1 idiom2 N1 N2) as [Hj Hpos].
  rewrite Hj. unfold jaccard. split.
  - intros H. apply Qnat_ratio_zero in H; [| exact Hpos].
    apply leibniz_equiv, size_empty_iff, H.
  - intros ->. rewrite size_empty. unfold Qnat at 1. simpl.
    unfold Qdiv. rewrite Qmult_0_l. reflexivity.
Qed.

(** ** The size of the penalty *)

(** The scorer never returns more than the base score. When it returns
    less, the penalty was enabled with an overlap above 0.3 and a base
    above 0.6, and the score is at least half the base and still above
    0.3. *)
Theorem penalty_lowers_by_at_most_half
    (idiom_sim context_sim : Q) (idiom1 idiom2 : string)
    (idiom_weight context_weight : Q) (lexical_penalty : bool) :
  let base := Improved.base_score idiom_weight context_weight idiom_sim context_sim in
  let score :=
    Improved.compute_weighted_similarity idiom_sim context_sim idiom1 idiom2
      idiom_weight context_weight lexical_penalty in
  score <= base
  /\ (score < base ->
      lexical_penalty = true
      /\ 0.3 < Improved.calculate_lexical_overlap idiom1 idiom2
      /\ 0.6 < base /\ base * 0.5 <= score /\ 0.3 < score).
Proof.
  intros base score. subst score. unfold Improved.compute_weighted_similarity.
  fold base.
  pose proof (overlap_bounds idiom1 idiom2) as [Hlo Hhi].
  set (overlap := Improved.calculate_lexical_overlap idiom1 idiom2) in *.
  destruct lexical_penalty.
  - destruct (Qgtb overlap 0.3) eqn:Ho; cbn [andb].
    + destruct (Qgtb base 0.6) eqn:Hb.
      * apply Qgtb_lt in Ho, Hb. split; [nra |].
        intros _. repeat split; try assumption; nra.
      * split; [apply Qle_refl |]. intros H. exfalso. exact (Qlt_irrefl _ H).
    + split; [apply Qle_refl |]. intros H. exfalso. exact (Qlt_irrefl _ H).
  - split; [apply Qle_refl |]. intros H. exfalso. exact (Qlt_irrefl _ H).
Qed.

Lemma penalty_lowers_by_at_most_half_witness :
  0.3 < Improved.compute_weighted_similarity 0.75 0.75 "kick the bucket"
          "kick the can" 0.6 0.4 true.
Proof.
  apply (penalty_lowers_by_at_most_half 0.75 0.75 "kick the bucket"
           "kick the can" 0.6 0.4 true).
  vm_compute. reflexivity.
Defined.

(** ** Mode A under a change of threshold *)

Lemma bind_sublist_pointwise {A B : Type} (f g : A -> list B) (l : list A) :
  (forall x, f x `sublist_of` g x) -> l ≫= f `sublist_of` l ≫= g.
Proof.
  intros Hfg. induction l as [| x l IH]; [constructor |].
  rewrite !bind_cons. apply sublist_app; [apply Hfg | exact IH].
Qed.

Lemma retained_pairs_sublist
    (en_idioms target_idioms : list idiom_data)
    (idiom_only_sims context_sims : nat -> nat -> Q)
    (threshold1 threshold2 idiom_weight context_weight : Q) :
  threshold1 <= threshold2 ->
  retained_pairs en_idioms target_idioms idiom_only_sims context_sims
    threshold2 idiom_weight context_weight
  `sublist_of`
  retained_pairs en_idioms target_idioms idiom_only_sims context_sims
    threshold1 idiom_weight context_weight.
Proof.
  intros Hle. unfold retained_pairs.
  apply bind_sublist_pointwise. intros i. unfold retained_row.
  apply bind_sublist_pointwise. intros j.
  destruct (Qgeb _ threshold2) eqn:H2; [| apply sublist_nil_l].
  apply Qgeb_le in H2.
  assert (H1 : threshold1 <= pair_score en_idioms target_idioms idiom_only_sims
                               context_sims idiom_weight context_weight (i, j))
    by (eapply Qle_trans; eassumption).
  apply Qgeb_le in H1. rewrite H1. reflexivity.
Qed.

(** Raising the threshold of Mode A only removes matches: the matches
    collected under the higher threshold are a sub-sequence, in the same
    order, of those collected under the lower one. *)
Theorem raising_threshold_only_removes_matches
    (en_idioms target_idioms : list idiom_data)
    (idiom_only_sims context_sims : nat -> nat -> Q)
    (threshold1 threshold2 idiom_weight context_weight : Q) :
  threshold1 <= threshold2 ->
  exists matches1 matches2,
    Improved.all_matches_loop en_idioms target_idioms idiom_only_sims context_sims
      threshold1 idiom_weight context_weight = Ok matches1
    /\ Improved.all_matches_loop en_idioms target_idioms idiom_only_sims
         context_sims threshold2 idiom_weight context_weight = Ok matches2
    /\ matches2 `sublist_of` matches1
    /\ (length matches2 <= length matches1)%nat.
Proof.
  intros Hle. eexists. eexists.
  split; [apply all_matches_loop_eq |]. split; [apply all_matches_loop_eq |].
  assert (Hsub : record_of en_idioms target_idioms idiom_only_sims context_sims
                   idiom_weight context_weight
                 <$> retained_pairs en_idioms target_idioms idiom_only_sims
                       context_sims threshold2 idiom_weight context_weight
                 `sublist_of`
                 record_of en_idioms target_idioms idiom_only_sims context_sims
                   idiom_weight context_weight
                 <$> retained_pairs en_idioms target_idioms idiom_only_sims
                       context_sims threshold1 idiom_weight context_weight).
  { apply fmap_sublist, retained_pairs_sublist, Hle. }
  split; [exact Hsub | apply sublist_length, Hsub].
Qed.

Lemma raising_threshold_only_removes_matches_witness :
  exists matches1 matches2,
    Improved.all_matches_loop [sample_idiom "a"; sample_idiom "b"]
      [sample_idiom "x"] (fun i _ => Qnat i) (fun i _ => Qnat i) 0.5 0.6 0.4
    = Ok matches1
    /\ Improved.all_matches_loop [sample_idiom "a"; sample_idiom "b"]
         [sample_idiom "x"] (fun i _ => Qnat i) (fun i _ => Qnat i) 0.65 0.6 0.4
       = Ok matches2
    /\ (length matches2 <= length matches1)%nat.
Proof.
  destruct (raising_threshold_only_removes_matches
              [sample_idiom "a"; sample_idiom "b"] [sample_idiom "x"]
              (fun i _ => Qnat i) (fun i _ => Qnat i) 0.5 0.65 0.6 0.4)
    as (m1 & m2 & H1 & H2 & _ & Hlen); [discriminate |].
  exists m1, m2. auto.
Defined.

(** ** Sorting by descending key *)




(** ** Counts, minima and maxima *)

Lemma count_ge_le_length (l : list Q) (thresh : Q) :
  (count_ge l thresh <= length l)%nat.
Proof. unfold count_ge. apply length_filter. Qed.

Lemma count_ge_mono (l : list Q) (thresh1 thresh2 : Q) :
  thresh1 <= thresh2 -> (count_ge l thresh2 <= count_ge l thresh1)%nat.
Proof.
  intros Hle. unfold count_ge. induction l as [| x l IH]; [reflexivity |].
  rewrite !filter_cons.
  destruct (decide (Qgeb x thresh2 = true)) as [H2 | H2].
  - apply Qgeb_le in H2.
    assert (H1 : Qgeb x thresh1 = true)
      by (apply Qgeb_le; eapply Qle_trans; eassumption).
    destruct (decide (Qgeb x thresh1 = true)); [simpl; lia | contradiction].
  - destruct (decide (Qgeb x thresh1 = true)); simpl; lia.
Qed.

Lemma foldl_Qmin_le (l : list Q) (x : Q) :
  foldl Qmin x l <= x /\ forall y, y ∈ l -> foldl Qmin x l <= y.
Proof.
  revert x. induction l as [| z l IH]; intros x; simpl.
  - split; [apply Qle_refl |]. intros y Hy. inversion Hy.
  - destruct (IH (Qmin x z)) as [Hx Hl]. split.
    + eapply Qle_trans; [exact Hx | apply Q.le_min_l].
    + intros y Hy. apply elem_of_cons in Hy as [-> | Hy]; [| apply Hl, Hy].
      eapply Qle_trans; [exact Hx | apply Q.le_min_r].
Qed.

Lemma foldl_Qmax_ge (l : list Q) (x : Q) :
  x <= foldl Qmax x l /\ forall y, y ∈ l -> y <= foldl Qmax x l.
Proof.
  revert x. induction l as [| z l IH]; intros x; simpl.
  - split; [apply Qle_refl |]. intros y Hy. inversion Hy.
  - destruct (IH (Qmax x z)) as [Hx Hl]. split.
    + eapply Qle_trans; [apply Q.le_max_l | exact Hx].
    + intros y Hy. apply elem_of_cons in Hy as [-> | Hy]; [| apply Hl, Hy].
      eapply Qle_trans; [apply Q.le_max_r | exact Hx].
Qed.

Lemma np_min_ok (l : list Q) :
  l <> [] -> exists m, np_min l = Ok m /\ forall y, y ∈ l -> m <= y.
Proof.
  intros Hne. destruct l as [| x l]; [contradiction |].
  exists (foldl Qmin x l). split; [reflexivity |].
  destruct (foldl_Qmin_le l x) as [Hx Hl].
  intros y Hy. apply elem_of_cons in Hy as [-> | Hy]; [exact Hx | apply Hl, Hy].
Qed.

Lemma np_max_ok (l : list Q) :
  l <> [] -> exists m, np_max l = Ok m /\ forall y, y ∈ l -> y <= m.
Proof.
  intros Hne. destruct l as [| x l]; [contradiction |].
  exists (foldl Qmax x l). split; [reflexivity |].
  destruct (foldl_Qmax_ge l x) as [Hx Hl].
  intros y Hy. apply elem_of_cons in Hy as [-> | Hy]; [exact Hx | apply Hl, Hy].
Qed.

Lemma percentage_bounds (count n : nat) :
  (count <= n)%nat -> (0 < n)%nat ->
  0 <= Qnat count / Qnat n * 100 <= 100.
Proof.
  intros Hle Hn. destruct (Qnat_ratio_bounds count n Hle Hn) as [H0 H1].
  split; nra.
Qed.

(** The line printed for one threshold. *)
Lemma distribution_lines_spec (l : list Q) (ts : list Q) :
  l <> [] ->
  StronglySorted Qle ts ->
  let lines :=
    (fun thresh =>
       (thresh, count_ge l thresh, Qnat (count_ge l thresh) / Qnat (length l) * 100))
      <$> ts in
  Forall (fun line => (line.1.2 <= length l)%nat /\ 0 <= line.2 <= 100) lines
  /\ StronglySorted (fun x y => (y.1.2 <= x.1.2)%nat) lines.
Proof.
  intros Hne Hts lines. subst lines.
  assert (Hlen : (0 < length l)%nat) by (destruct l; [contradiction | simpl; lia]).
  split.
  - apply Forall_fmap, Forall_forall. intros thresh _. cbn.
    split; [apply count_ge_le_length |].
    apply percentage_bounds; [apply count_ge_le_length | exact Hlen].
  - induction Hts as [| t ts Hts IH Ht]; [constructor |].
    rewrite fmap_cons. constructor; [exact IH |].
    apply Forall_fmap. eapply Forall_impl; [exact Ht |].
    intros t' Hle. cbn. apply count_ge_mono, Hle.
Qed.

Lemma improved_thresholds_sorted : StronglySorted Qle Improved.thresholds.
Proof.
  unfold Improved.thresholds.
  repeat (constructor; [| repeat (constructor; [discriminate |]); constructor]).
  constructor.
Qed.

(** ** The best-match statistics of the improved analysis *)


(** On a non-empty list of best matches the statistics never raise: the
    minimum and the maximum bound every best score, and the distribution
    has one line per threshold, with a count of at most the number of
    best matches that does not grow along the thresholds, and a
    percentage between 0 and 100. *)
Theorem best_match_statistics_on_nonempty
    (target_best_matches_sorted : list Improved.BestMatch.t) :
  target_best_matches_sorted <> [] ->
  exists m,
    Improved.best_match_statistics target_best_matches_sorted = Ok m
    /\ (forall r, r ∈ target_best_matches_sorted ->
          Improved.bm_min m <= Improved.BestMatch.weighted_similarity r
          /\ Improved.BestMatch.weighted_similarity r <= Improved.bm_max m)
    /\ length (Improved.bm_distribution m) = length Improved.thresholds
    /\ Forall (fun line =>
                 (line.1.2 <= length target_best_matches_sorted)%nat
                 /\ 0 <= line.2 <= 100) (Improved.bm_distribution m)
    /\ StronglySorted (fun x y => (y.1.2 <= x.1.2)%nat) (Improved.bm_distribution m).
Proof.
  intros Hne. unfold Improved.best_match_statistics.
  set (best_weighted :=
         Improved.BestMatch.weighted_similarity <$> target_best_matches_sorted).
  assert (Hbw : best_weighted <> []).
  { intros E. apply fmap_nil_inv in E. contradiction. }
  destruct (np_min_ok best_weighted Hbw) as (mn & -> & Hmn).
  destruct (np_max_ok best_weighted Hbw) as (mx & -> & Hmx).
  rewrite (best_distribution_nonempty best_weighted Hbw).
  cbn [mbind result_mbind result_bind].
  eexists. split; [reflexivity |]. cbn [Improved.bm_min Improved.bm_max
                                          Improved.bm_distribution].
  split.
  { intros r Hr.
    assert (Hin : Improved.BestMatch.weighted_similarity r ∈ best_weighted)
      by (apply list_elem_of_fmap_2, Hr).
    split; [apply Hmn, Hin | apply Hmx, Hin]. }
  split; [apply length_fmap |].
  pose proof (distribution_lines_spec best_weighted Improved.thresholds Hbw
                improved_thresholds_sorted) as [Hall Hsorted].
  split; [| exact Hsorted].
  eapply Forall_impl; [exact Hall |]. intros line [H1 H2].
  split; [| exact H2]. subst best_weighted. rewrite length_fmap in H1. exact H1.
Qed.

Lemma best_match_statistics_on_nonempty_witness :
  exists m,
    Improved.best_match_statistics
      [{| Improved.BestMatch.lang_idiom := "casser sa pipe";
          Improved.BestMatch.lang_context := "";
          Improved.BestMatch.english_translation := "";
          Improved.BestMatch.best_english_match := "kick the bucket";
          Improved.BestMatch.english_context := "";
          Improved.BestMatch.weighted_similarity := 0.72;
          Improved.BestMatch.idiom_only_similarity := 0.7;
          Improved.BestMatch.context_similarity := 0.75;
          Improved.BestMatch.lexical_overlap := 0 |}] = Ok m
    /\ length (Improved.bm_distribution m) = 5%nat.
Proof.
  destruct (best_match_statistics_on_nonempty
              [{| Improved.BestMatch.lang_idiom := "casser sa pipe";
                  Improved.BestMatch.lang_context := "";
                  Improved.BestMatch.english_translation := "";
                  Improved.BestMatch.best_english_match := "kick the bucket";
                  Improved.BestMatch.english_context := "";
                  Improved.BestMatch.weighted_similarity := 0.72;
                  Improved.BestMatch.idiom_only_similarity := 0.7;
                  Improved.BestMatch.context_similarity := 0.75;
                  Improved.BestMatch.lexical_overlap := 0 |}])
    as (m & Hm & _ & Hlen & _); [discriminate |].
  exists m. split; [exact Hm | exact Hlen].
Defined.

(** ** The improved analysis as a whole *)



Lemma mode_b_one_record_per_target_witness :
  exists rs,
    Improved.target_best_matches_loop
      [sample_idiom "spill the beans"; sample_idiom "kick the bucket"]
      [sample_idiom "casser sa pipe"]
      (fun i _ => Qnat i / 2) (fun i _ => Qnat i / 2) 0.6 0.4 = Ok rs
    /\ length rs = 1%nat.
Proof.
  destruct (mode_b_one_record_per_target
              [sample_idiom "spill the beans"; sample_idiom "kick the bucket"]
              [sample_idiom "casser sa pipe"]
              (fun i _ => Qnat i / 2) (fun i _ => Qnat i / 2) 0.6 0.4)
    as (rs & Hrs & Hlen & _); [discriminate |].
  exists rs. split; [exact Hrs | exact Hlen].
Defined.

(** ** The Finnish/Japanese analysis *)

(** On the matrix that [cosine_similarity] returns, which has at least
    one row, the best-match loop of the Finnish/Japanese analysis never
    raises when every row has its source idiom and every target idiom its
    column: it records, for every target idiom and whatever the
    similarities are, the first-seen source idiom of maximal similarity
    together with that similarity. *)
Theorem argmax_mode_b_selects_first_maximum
    (en_idioms target_idioms : list idiom_data) (en_rows target_rows : nat)
    (cosine : nat -> nat -> Q) (similarities : matrix) :
  cosine_similarity en_rows target_rows cosine = Ok similarities ->
  (en_rows <= length en_idioms)%nat ->
  (length target_idioms <= target_rows)%nat ->
  exists rs,
    FinnishJapanese.best_matches_loop en_idioms target_idioms similarities = Ok rs
    /\ length rs = length target_idioms
    /\ forall t r, rs !! t = Some r ->
         FinnishJapanese.BestMatch.lang_idiom r = idiom (idiom_at target_idioms t)
         /\ exists b,
              (b < en_rows)%nat
              /\ (forall i, (i < en_rows)%nat -> cosine i t <= cosine b t)
              /\ (forall i, (i < b)%nat -> cosine i t < cosine b t)
              /\ FinnishJapanese.BestMatch.best_english_match r
                 = idiom (idiom_at en_idioms b)
              /\ FinnishJapanese.BestMatch.similarity r = cosine b t.
Proof.
  intros Hcos Hen Htgt.
  apply cosine_similarity_shape in Hcos as (Hrows & Hcols & ->).
  exists (best_record_of en_idioms
            {| n_rows := en_rows; n_cols := target_rows; entries := cosine |}
          <$> enumerate target_idioms).
  split; [apply best_matches_loop_eq; cbn [n_rows n_cols]; lia |].
  split.
  { rewrite length_fmap. unfold enumerate.
    rewrite length_zip_with, length_seq. lia. }
  intros t r Hr. rewrite list_lookup_fmap in Hr.
  destruct (enumerate target_idioms !! t) as [[t' d] |] eqn:Hentry;
    [| discriminate Hr].
  injection Hr as <-.
  assert (Hin : (t', d) ∈ enumerate target_idioms)
    by (apply list_elem_of_lookup; exists t; exact Hentry).
  apply enumerate_lookup in Hin as [_ Hd]. cbn [fst snd] in Hd.
  unfold enumerate in Hentry.
  apply lookup_zip_with_Some in Hentry as (a & d' & Heq & Ha & _).
  injection Heq as Heq1 Heq2. subst a d'.
  apply lookup_seq in Ha as [Ht' _]. cbn [plus] in Ht'. subst t' d.
  destruct (best_index_spec (fun i => cosine i t) en_rows Hrows)
    as (_ & Hb & Hmax & Hfirst).
  split; [reflexivity |].
  exists (best_index (fun i => cosine i t) en_rows).
  split; [exact Hb |]. split; [exact Hmax |]. split; [exact Hfirst |].
  split; reflexivity.
Qed.

Lemma argmax_mode_b_selects_first_maximum_witness :
  exists rs,
    FinnishJapanese.best_matches_loop
      [sample_idiom "spill the beans"; sample_idiom "kick the bucket"]
      [sample_idiom "heittaa veivinsa"]
      {| n_rows := 2; n_cols := 1; entries := fun i _ => Qnat i / 2 |} = Ok rs
    /\ length rs = 1%nat.
Proof.
  destruct (argmax_mode_b_selects_first_maximum
              [sample_idiom "spill the beans"; sample_idiom "kick the bucket"]
              [sample_idiom "heittaa veivinsa"] 2 1 (fun i _ => Qnat i / 2)
              {| n_rows := 2; n_cols := 1; entries := fun i _ => Qnat i / 2 |})
    as (rs & Hrs & Hlen & _); [reflexivity | simpl; lia | simpl; lia |].
  exists rs. split; [exact Hrs | exact Hlen].
Defined.

Lemma distribution_loop_eq (ts l : list Q) :
  l <> [] ->
  for_each ts (fun thresh lines =>
    let count := count_ge l thresh in
    q ← py_truediv count (length l);
    let pct := q * 100 in
    Ok (lines ++ [(thresh, count, pct)])) []
  = Ok ((fun thresh =>
           (thresh, count_ge l thresh, Qnat (count_ge l thresh) / Qnat (length l) * 100))
          <$> ts).
Proof.
  intros Hne.
  rewrite (for_each_collect _ _
             (fun thresh =>
                [(thresh, count_ge l thresh,
                  Qnat (count_ge l thresh) / Qnat (length l) * 100)])).
  - rewrite bind_singleton_fmap. reflexivity.
  - intros thresh acc _. cbv beta zeta.
    rewrite py_truediv_nonzero; [reflexivity |].
    destruct l; [contradiction | simpl; lia].
Qed.


Lemma french_best_distribution_nonempty (l : list Q) :
  l <> [] ->
  CrossLingual.best_distribution l
  = Ok ((fun thresh =>
           (thresh, count_ge l thresh, Qnat (count_ge l thresh) / Qnat (length l) * 100))
          <$> CrossLingual.thresholds).
Proof. exact (distribution_loop_eq CrossLingual.thresholds l). Qed.

Lemma ascending_thresholds_sorted :
  StronglySorted Qle FinnishJapanese.thresholds
  /\ StronglySorted Qle CrossLingual.thresholds.
Proof.
  split;
    repeat (constructor; [| repeat (constructor; [discriminate |]); constructor]);
    constructor.
Qed.



Section argmax_analysis.

Variables en_idioms target_idioms : list idiom_data.
Variable similarities : matrix.



End argmax_analysis.

Lemma length_zero_nil {A : Type} (l : list A) : length l = O -> l = [].
Proof. destruct l; [reflexivity | discriminate]. Qed.




(** ** The distributions of the English-French analysis *)

(** On non-empty score sequences neither distribution of the
    English-French analysis raises: every line has a count of at most the
    number of scores and a percentage between 0 and 100, and the counts do
    not grow along the thresholds. *)
Theorem french_distributions_on_nonempty (all_sims fr_best_sims : list Q) :
  all_sims <> [] -> fr_best_sims <> [] ->
  Forall (fun line =>
            (line.1.2 <= length all_sims)%nat
            /\ exists pct, line.2 = Fin pct /\ 0 <= pct <= 100)
    (CrossLingual.all_pairs_distribution all_sims)
  /\ StronglySorted (fun x y => (y.1.2 <= x.1.2)%nat)
       (CrossLingual.all_pairs_distribution all_sims)
  /\ exists lines,
       CrossLingual.best_distribution fr_best_sims = Ok lines
       /\ length lines = length CrossLingual.thresholds
       /\ Forall (fun line => (line.1.2 <= length fr_best_sims)%nat
                              /\ 0 <= line.2 <= 100) lines
       /\ StronglySorted (fun x y => (y.1.2 <= x.1.2)%nat) lines.
Proof.
  intros Hall Hbest.
  assert (Hlen : (0 < length all_sims)%nat)
    by (destruct all_sims; [contradiction | simpl; lia]).
  destruct ascending_thresholds_sorted as [_ Hts].
  split; [| split].
  - unfold CrossLingual.all_pairs_distribution.
    apply Forall_fmap, Forall_forall. intros thresh _. cbn.
    split; [apply count_ge_le_length |].
    unfold np_truediv. destruct (length all_sims) as [| n] eqn:Hn; [lia |].
    cbn [np_scale]. eexists. split; [reflexivity |].
    rewrite <- Hn. apply percentage_bounds; [apply count_ge_le_length | lia].
  - unfold CrossLingual.all_pairs_distribution.
    induction Hts as [| t ts Hts IH Ht]; [constructor |].
    rewrite fmap_cons. constructor; [exact IH |].
    apply Forall_fmap. eapply Forall_impl; [exact Ht |].
    intros t' Hle. cbn. apply count_ge_mono, Hle.
  - rewrite (french_best_distribution_nonempty fr_best_sims Hbest).
    eexists. split; [reflexivity |]. split; [apply length_fmap |].
    exact (distribution_lines_spec fr_best_sims CrossLingual.thresholds Hbest Hts).
Qed.

Lemma french_distributions_on_nonempty_witness :
  exists lines,
    CrossLingual.best_distribution [0.9; 0.45] = Ok lines
    /\ length lines = 6%nat.
Proof.
  destruct (french_distributions_on_nonempty [0.2; 0.9] [0.9; 0.45])
    as (_ & _ & lines & Hlines & Hlen & _); [discriminate | discriminate |].
  exists lines. split; [exact Hlines | exact Hlen].
Defined.

(** ** The texts handed to the encoder *)

Lemma string_app_nil_r (s : string) : (s ++ "")%string = s.
Proof.
  induction s as [| a s IH]; [reflexivity |].
  change (String a (s ++ "")%string = String a s). f_equal. exact IH.
Qed.

Lemma text_to_encode_first_three (use_contexts : bool)
    (item : SemanticMatcher.idiom_dict) :
  SemanticMatcher.text_to_encode use_contexts (first_three_contexts item)
  = SemanticMatcher.text_to_encode use_contexts item.
Proof.
  unfold SemanticMatcher.text_to_encode, first_three_contexts,
    SemanticMatcher.get_text. cbn.
  destruct use_contexts; [| reflexivity].
  destruct (SemanticMatcher.dict_contexts item) as [| c1 [| c2 [| c3 cs]]];
    reflexivity.
Qed.

(** [encode_idioms_with_context] hands the encoder one text per idiom, in
    order. Every text starts with the idiom text; without [use_contexts]
    it is the idiom text itself, the text under which [find_similar_mwes]
    files the idiom; and only the first three contexts of an idiom
    matter. *)
Theorem texts_to_encode_shape (idiom_data : list SemanticMatcher.idiom_dict)
    (use_contexts : bool) :
  length (SemanticMatcher.texts_to_encode idiom_data use_contexts)
  = length idiom_data
  /\ SemanticMatcher.texts_to_encode idiom_data false
     = SemanticMatcher.get_text <$> idiom_data
  /\ (idiom_data <> [] ->
      SemanticMatcher.idiom_texts (SemanticMatcher.Dicts idiom_data)
      = Ok (SemanticMatcher.texts_to_encode idiom_data false))
  /\ (forall i item, idiom_data !! i = Some item ->
        exists rest,
          SemanticMatcher.texts_to_encode idiom_data use_contexts !! i
          = Some (SemanticMatcher.get_text item ++ rest)%string)
  /\ SemanticMatcher.texts_to_encode (first_three_contexts <$> idiom_data)
       use_contexts
     = SemanticMatcher.texts_to_encode idiom_data use_contexts.
Proof.
  unfold SemanticMatcher.texts_to_encode.
  split; [apply length_fmap |].
  assert (Hplain : SemanticMatcher.text_to_encode false <$> idiom_data
                   = SemanticMatcher.get_text <$> idiom_data).
  { apply list_fmap_ext. intros i item _. reflexivity. }
  split; [exact Hplain |].
  split.
  { intros Hne. rewrite Hplain.
    destruct idiom_data; [contradiction | reflexivity]. }
  split.
  - intros i item Hi. rewrite list_lookup_fmap, Hi. cbn.
    unfold SemanticMatcher.text_to_encode.
    destruct use_contexts, (SemanticMatcher.dict_contexts item);
      first [ exists EmptyString; f_equal; symmetry; apply string_app_nil_r
            | eexists; reflexivity ].
  - rewrite <- list_fmap_compose. apply list_fmap_ext.
    intros i item _. apply text_to_encode_first_three.
Qed.

Lemma texts_to_encode_shape_witness :
  SemanticMatcher.idiom_texts
    (SemanticMatcher.Dicts
       [{| SemanticMatcher.text := Some "break the ice"%string;
           SemanticMatcher.idiom_key := None;
           SemanticMatcher.dict_contexts := ["It broke the ice."%string] |}])
  = Ok ["break the ice"%string]
  /\ SemanticMatcher.texts_to_encode
       [{| SemanticMatcher.text := Some "break the ice"%string;
           SemanticMatcher.idiom_key := None;
           SemanticMatcher.dict_contexts := ["It broke the ice."%string] |}] true
     = ["break the ice: It broke the ice."%string].
Proof.
  split; [| reflexivity].
  destruct (texts_to_encode_shape
              [{| SemanticMatcher.text := Some "break the ice"%string;
                  SemanticMatcher.idiom_key := None;
                  SemanticMatcher.dict_contexts := ["It broke the ice."%string] |}]
              true) as (_ & _ & H & _).
  rewrite H; [reflexivity | discriminate].
Defined.

(** ** The best match of a query *)

Lemma nth_lookup_string (l : list string) (i : nat) :
  (i < length l)%nat -> l !! i = Some (nth i l EmptyString).
Proof.
  intros Hi. destruct (nth_lookup_or_length l i EmptyString) as [H | H];
    [exact H | lia].
Qed.

(** With at least one candidate [find_best_match] returns the first
    candidate of maximal similarity to the query, with that similarity. *)
Theorem find_best_match_is_first_maximum
    (candidates : list string) (similarities : nat -> Q) :
  candidates <> [] ->
  exists b,
    (b < length candidates)%nat
    /\ SemanticMatcher.find_best_match candidates similarities
       = Ok (nth b candidates EmptyString, similarities b)
    /\ (forall i, (i < length candidates)%nat ->
          similarities i <= similarities b)
    /\ (forall i, (i < b)%nat -> similarities i < similarities b).
Proof.
  intros Hne.
  assert (Hn : (0 < length candidates)%nat)
    by (destruct candidates; [contradiction | simpl; lia]).
  destruct (best_index_spec similarities (length candidates) Hn)
    as (Harg & Hb & Hmax & Hfirst).
  exists (best_index similarities (length candidates)).
  split; [exact Hb |]. split; [| split; assumption].
  unfold SemanticMatcher.find_best_match.
  rewrite cosine_similarity_ok by lia.
  cbn [mbind result_mbind result_bind].
  rewrite matrix_row_ok by (cbn [n_rows]; lia).
  cbn [mbind result_mbind result_bind n_cols entries].
  rewrite Harg. cbn [mbind result_mbind result_bind].
  rewrite (py_index_nat candidates _ _ (nth_lookup_string candidates _ Hb)).
  cbn [mbind result_mbind result_bind].
  rewrite (py_index_nat _ _ _ (range_row_lookup similarities _ _ Hb)).
  reflexivity.
Qed.

Lemma find_best_match_is_first_maximum_witness :
  exists b,
    SemanticMatcher.find_best_match ["romper el hielo"; "estirar la pata"]%string
      (fun i => Qnat i / 2)
    = Ok (nth b ["romper el hielo"; "estirar la pata"]%string EmptyString,
          Qnat b / 2).
Proof.
  destruct (find_best_match_is_first_maximum
              ["romper el hielo"; "estirar la pata"]%string (fun i => Qnat i / 2))
    as (b & _ & Hb & _); [discriminate |].
  exists b. exact Hb.
Defined.

(** ** [batch_match] *)

Lemma snd_enumerate {A : Type} (l : list A) : (enumerate l).*2 = l.
Proof. unfold enumerate. apply snd_zip. rewrite length_seq. reflexivity. Qed.

Lemma fmap_bind_sublist {A B C : Type} (h : B -> C) (k : A -> C)
    (g : A -> list B) (l : list A) :
  (forall x, h <$> g x `sublist_of` [k x]) ->
  h <$> (l ≫= g) `sublist_of` k <$> l.
Proof.
  intros Hg. induction l as [| x l IH]; [constructor |].
  rewrite bind_cons, fmap_app, fmap_cons.
  change (k x :: (k <$> l)) with ([k x] ++ (k <$> l)).
  apply sublist_app; [apply Hg | exact IH].
Qed.

Section batch_match.

Variables queries candidates : list string.
Variable similarity_matrix : nat -> nat -> Q.
Variable threshold : Q.

(** With at least one query and one candidate [batch_match] never raises
    and collects what each query contributes. *)
Lemma batch_match_eq :
  queries <> [] -> candidates <> [] ->
  SemanticMatcher.batch_match queries candidates similarity_matrix threshold
  = Ok (enumerate queries
        ≫= batch_kept candidates similarity_matrix threshold).
Proof.
  intros Hq Hne.
  assert (Hm : (0 < length queries)%nat)
    by (destruct queries; [contradiction | simpl; lia]).
  assert (Hn : (0 < length candidates)%nat)
    by (destruct candidates; [contradiction | simpl; lia]).
  unfold SemanticMatcher.batch_match.
  rewrite cosine_similarity_ok by lia.
  cbn [mbind result_mbind result_bind].
  rewrite (for_each_collect _ _ (batch_kept candidates similarity_matrix threshold));
    [reflexivity |].
  intros [i q] acc Hin. apply elem_of_enumerate in Hin.
  apply lookup_lt_Some in Hin.
  unfold SemanticMatcher.batch_step.
  rewrite matrix_row_ok by (cbn [n_rows]; lia).
  cbn [mbind result_mbind result_bind n_cols entries].
  destruct (best_index_spec (similarity_matrix i) (length candidates) Hn)
    as (Harg & Hb & _).
  rewrite Harg. cbn [mbind result_mbind result_bind].
  rewrite (py_index_nat _ _ _ (range_row_lookup (similarity_matrix i) _ _ Hb)).
  cbn [mbind result_mbind result_bind].
  unfold batch_kept, batch_record. cbn [fst snd SemanticMatcher.BatchResult.score].
  destruct (Qgeb _ threshold); [| rewrite app_nil_r; reflexivity].
  rewrite (py_index_nat candidates _ _ (nth_lookup_string candidates _ Hb)).
  reflexivity.
Qed.

Lemma elem_of_batch_kept (r : SemanticMatcher.BatchResult.t) (entry : nat * string) :
  r ∈ batch_kept candidates similarity_matrix threshold entry
  <-> r = batch_record candidates similarity_matrix entry
      /\ threshold <= SemanticMatcher.BatchResult.score r.
Proof.
  unfold batch_kept.
  destruct (Qgeb _ threshold) eqn:Hk.
  - apply Qgeb_le in Hk. rewrite list_elem_of_singleton. split.
    + intros ->. split; [reflexivity | exact Hk].
    + intros [-> _]. reflexivity.
  - apply Qgeb_lt in Hk. split; [intros H; inversion H |].
    intros [-> Hle]. exfalso. apply (Qlt_irrefl threshold).
    eapply Qle_lt_trans; eassumption.
Qed.

End batch_match.

(** With at least one query and one candidate [batch_match] never
    raises. Its results follow the order of the queries; each holds a
    query together with its first candidate of maximal similarity and that
    similarity, which is at least the threshold; and a query one of whose
    candidates reaches the threshold does get a result. *)
Theorem batch_match_keeps_best_above_threshold
    (queries candidates : list string) (similarity_matrix : nat -> nat -> Q)
    (threshold : Q) :
  queries <> [] -> candidates <> [] ->
  exists results,
    SemanticMatcher.batch_match queries candidates similarity_matrix threshold
    = Ok results
    /\ SemanticMatcher.BatchResult.query <$> results `sublist_of` queries
    /\ Forall (fun r =>
                 threshold <= SemanticMatcher.BatchResult.score r
                 /\ exists i b,
                      queries !! i = Some (SemanticMatcher.BatchResult.query r)
                      /\ candidates !! b
                         = Some (SemanticMatcher.BatchResult.best_match r)
                      /\ SemanticMatcher.BatchResult.score r = similarity_matrix i b
                      /\ (forall j, (j < length candidates)%nat ->
                            similarity_matrix i j <= similarity_matrix i b)
                      /\ (forall j, (j < b)%nat ->
                            similarity_matrix i j < similarity_matrix i b))
         results
    /\ (forall i q j,
          queries !! i = Some q -> (j < length candidates)%nat ->
          threshold <= similarity_matrix i j ->
          exists r, r ∈ results /\ SemanticMatcher.BatchResult.query r = q
                    /\ similarity_matrix i j <= SemanticMatcher.BatchResult.score r).
Proof.
  intros Hq Hne.
  assert (Hn : (0 < length candidates)%nat)
    by (destruct candidates; [contradiction | simpl; lia]).
  eexists. split; [apply batch_match_eq; assumption |]. split; [| split].
  - rewrite <- (snd_enumerate queries) at 2.
    apply fmap_bind_sublist. intros entry. unfold batch_kept.
    destruct (Qgeb _ threshold); [reflexivity | apply sublist_nil_l].
  - apply Forall_forall. intros r Hr.
    apply list_elem_of_bind in Hr as ([i q] & Hr & Hentry).
    apply elem_of_batch_kept in Hr as [-> Hle].
    apply elem_of_enumerate in Hentry.
    destruct (best_index_spec (similarity_matrix i) (length candidates) Hn)
      as (_ & Hb & Hmax & Hfirst).
    split; [exact Hle |].
    exists i, (best_index (similarity_matrix i) (length candidates)).
    cbn. split; [exact Hentry |].
    split; [apply nth_lookup_string, Hb |]. split; [reflexivity |].
    split; assumption.
  - intros i q j Hi Hj Hle.
    destruct (best_index_spec (similarity_matrix i) (length candidates) Hn)
      as (_ & Hb & Hmax & _).
    exists (batch_record candidates similarity_matrix (i, q)).
    split; [| split; [reflexivity | apply Hmax, Hj]].
    apply list_elem_of_bind. exists (i, q).
    split; [| apply elem_of_enumerate, Hi].
    apply elem_of_batch_kept. split; [reflexivity |].
    eapply Qle_trans; [exact Hle | apply Hmax, Hj].
Qed.

Lemma batch_match_keeps_best_above_threshold_witness :
  exists results,
    SemanticMatcher.batch_match ["break the ice"; "kick the bucket"]%string
      ["romper el hielo"; "estirar la pata"]%string
      (fun i j => if (i =? j)%nat then 0.9 else 0.2) 0.6 = Ok results
    /\ SemanticMatcher.BatchResult.query <$> results
       `sublist_of` ["break the ice"; "kick the bucket"]%string.
Proof.
  destruct (batch_match_keeps_best_above_threshold
              ["break the ice"; "kick the bucket"]%string
              ["romper el hielo"; "estirar la pata"]%string
              (fun i j => if (i =? j)%nat then 0.9 else 0.2) 0.6)
    as (results & Hr & Hsub & _); [discriminate | discriminate |].
  exists results. split; [exact Hr | exact Hsub].
Defined.

(** ** [find_similar_mwes]: which idioms are filed, and their best match *)

Section find_similar_mwes_complete.

Variable foreign_mwes : list string.
Variable similarity_matrix : nat -> nat -> Q.
Variable threshold : Q.
Variable top_k : nat.

Lemma elem_of_ranked_candidates (i : nat) (p : nat * Q) :
  p ∈ ranked_candidates foreign_mwes similarity_matrix top_k i ->
  (p.1 < length foreign_mwes)%nat /\ p.2 = similarity_matrix i p.1.
Proof.
  unfold ranked_candidates. intros Hp. apply subseteq_take in Hp.
  rewrite elem_of_reverse, sorted_asc_perm in Hp.
  destruct p as [j v]. apply elem_of_enumerate, row_lookup in Hp. exact Hp.
Qed.

(** The match list of row [i]: the kept pairs of its ranked candidates. *)
Lemma matched_eq (i : nat) :
  SemanticMatcher.matched foreign_mwes similarity_matrix threshold top_k i
  = Ok (ranked_candidates foreign_mwes similarity_matrix top_k i
        ≫= kept_pair foreign_mwes threshold).
Proof.
  unfold SemanticMatcher.matched, SemanticMatcher.top_indices, np_argsort.
  rewrite <- fmap_reverse, <- fmap_take, for_each_fmap.
  fold (ranked_candidates foreign_mwes similarity_matrix top_k i).
  rewrite (for_each_collect _ _ (kept_pair foreign_mwes threshold));
    [reflexivity |].
  intros p acc Hp. apply elem_of_ranked_candidates in Hp as [Hlt Hv].
  unfold SemanticMatcher.matched_step.
  rewrite (py_index_nat _ p.1 p.2).
  - cbn [mbind result_mbind result_bind]. unfold kept_pair.
    destruct (Qgeb p.2 threshold); [| rewrite app_nil_r; reflexivity].
    rewrite (py_index_nat foreign_mwes _ _ (nth_lookup_string foreign_mwes _ Hlt)).
    reflexivity.
  - apply row_lookup. split; assumption.
Qed.

(** Every pair of a match list comes from a candidate of the row that
    reaches the threshold. *)
Lemma elem_of_matched (i : nat) (q : string * Q) :
  q ∈ ranked_candidates foreign_mwes similarity_matrix top_k i
      ≫= kept_pair foreign_mwes threshold ->
  exists j, (j < length foreign_mwes)%nat /\ q.2 = similarity_matrix i j
            /\ threshold <= q.2.
Proof.
  intros Hq. apply list_elem_of_bind in Hq as (p & Hq & Hp).
  apply elem_of_ranked_candidates in Hp as [Hlt Hv].
  unfold kept_pair in Hq. destruct (Qgeb p.2 threshold) eqn:Hk; [| inversion Hq].
  apply list_elem_of_singleton in Hq. subst q. cbn [snd].
  apply Qgeb_le in Hk. exists p.1. auto.
Qed.

(** With [top_k] at least 1, a row with a candidate that reaches the
    threshold has a non-empty match list, headed by a pair of maximal
    similarity. *)
Lemma matched_head_is_maximum (i j : nat) :
  (0 < top_k)%nat -> (j < length foreign_mwes)%nat ->
  threshold <= similarity_matrix i j ->
  exists q rest,
    ranked_candidates foreign_mwes similarity_matrix top_k i
      ≫= kept_pair foreign_mwes threshold = q :: rest
    /\ forall j', (j' < length foreign_mwes)%nat -> similarity_matrix i j' <= q.2.
Proof.
  intros Hk Hj Hle. unfold ranked_candidates.
  set (desc := reverse (sorted_asc snd
                          (enumerate (SemanticMatcher.row foreign_mwes
                                        similarity_matrix i)))).
  assert (Hin : forall j', (j' < length foreign_mwes)%nat ->
                           (j', similarity_matrix i j') ∈ desc).
  { intros j' Hj'. subst desc. rewrite elem_of_reverse, sorted_asc_perm.
    apply elem_of_enumerate, row_lookup. auto. }
  assert (Hdesc : StronglySorted (fun a b : nat * Q => b.2 <= a.2) desc).
  { subst desc. apply (StronglySorted_reverse (fun a b : nat * Q => a.2 <= b.2)).
    apply sorted_asc_sorted. }
  clearbody desc. destruct desc as [| p ps].
  { specialize (Hin j Hj). inversion Hin. }
  destruct top_k as [| k]; [lia |]. cbn [take]. rewrite bind_cons.
  apply StronglySorted_inv in Hdesc as [_ Hp]. rewrite Forall_forall in Hp.
  assert (Hmax : forall j', (j' < length foreign_mwes)%nat ->
                            similarity_matrix i j' <= p.2).
  { intros j' Hj'. specialize (Hin j' Hj').
    apply elem_of_cons in Hin as [<- | Hin]; [apply Qle_refl |].
    exact (Hp _ Hin). }
  assert (Hkeep : Qgeb p.2 threshold = true).
  { apply Qgeb_le. eapply Qle_trans; [exact Hle | apply Hmax, Hj]. }
  unfold kept_pair at 1. rewrite Hkeep. cbn [app].
  eexists. eexists. split; [reflexivity |]. exact Hmax.
Qed.

(** The loop over the English idioms, with the match list of every entry
    of the mapping identified. *)
Lemma matches_loop_filed (entries : list (nat * string))
    (matches : gmap string (list (string * Q))) :
  exists matches',
    for_each entries
      (SemanticMatcher.matches_step foreign_mwes similarity_matrix threshold top_k)
      matches = Ok matches'
    /\ (forall key, is_Some (matches !! key) -> is_Some (matches' !! key))
    /\ (forall i key q rest,
          (i, key) ∈ entries ->
          ranked_candidates foreign_mwes similarity_matrix top_k i
            ≫= kept_pair foreign_mwes threshold = q :: rest ->
          is_Some (matches' !! key))
    /\ (forall key l, matches' !! key = Some l ->
          matches !! key = Some l
          \/ exists i, (i, key) ∈ entries /\ l <> []
               /\ ranked_candidates foreign_mwes similarity_matrix top_k i
                    ≫= kept_pair foreign_mwes threshold = l).
Proof.
  revert matches. induction entries as [| [i idiom] entries IH]; intros matches.
  - exists matches. split; [reflexivity |]. split; [auto |]. split.
    + intros i key q rest Hin. inversion Hin.
    + intros key l Hl. left. exact Hl.
  - cbn [for_each]. unfold SemanticMatcher.matches_step at 1.
    rewrite matched_eq. cbn [mbind result_mbind result_bind].
    destruct (ranked_candidates foreign_mwes similarity_matrix top_k i
                ≫= kept_pair foreign_mwes threshold) as [| q0 l0] eqn:Hl0.
    + destruct (IH matches) as (matches' & -> & Hkeep & Hfiled & Hfrom).
      exists matches'. split; [reflexivity |]. split; [exact Hkeep |]. split.
      * intros k key q rest Hin Hk.
        apply elem_of_cons in Hin as [Heq | Hin]; [| eapply Hfiled; eassumption].
        injection Heq as -> ->. rewrite Hl0 in Hk. discriminate Hk.
      * intros key l Hl. destruct (Hfrom key l Hl) as [H | (k & Hk & H)];
          [left; exact H |].
        right. exists k. split; [apply list_elem_of_further, Hk | exact H].
    + destruct (IH (<[idiom := q0 :: l0]> matches))
        as (matches' & -> & Hkeep & Hfiled & Hfrom).
      exists matches'. split; [reflexivity |]. split; [| split].
      * intros key Hkey. apply Hkeep.
        destruct (decide (idiom = key)) as [-> | Hne].
        -- rewrite lookup_insert_eq. eauto.
        -- rewrite lookup_insert_ne by exact Hne. exact Hkey.
      * intros k key q rest Hin Hk.
        apply elem_of_cons in Hin as [Heq | Hin]; [| eapply Hfiled; eassumption].
        injection Heq as -> ->. apply Hkeep. rewrite lookup_insert_eq. eauto.
      * intros key l Hl. destruct (Hfrom key l Hl) as [H | (k & Hk & H)].
        -- destruct (decide (idiom = key)) as [-> | Hne].
           ++ rewrite lookup_insert_eq in H. injection H as <-.
              right. exists i. split; [apply list_elem_of_here |].
              split; [discriminate | exact Hl0].
           ++ rewrite lookup_insert_ne in H by exact Hne. left. exact H.
        -- right. exists k. split; [apply list_elem_of_further, Hk | exact H].
Qed.

End find_similar_mwes_complete.






(** ** [find_similar_mwes] against [batch_match] *)

(** Over the same idioms, candidates, similarities and threshold, and
    with [top_k] at least 1, [find_similar_mwes] files exactly the idioms
    for which [batch_match] returns a result. *)
Theorem find_similar_mwes_files_what_batch_match_returns
    (queries candidates : list string) (similarity_matrix : nat -> nat -> Q)
    (threshold : Q) (top_k : nat) :
  queries <> [] -> candidates <> [] -> (0 < top_k)%nat ->
  exists matches results,
    SemanticMatcher.find_similar_mwes candidates similarity_matrix threshold top_k
      (SemanticMatcher.Texts queries) = Ok matches
    /\ SemanticMatcher.batch_match queries candidates similarity_matrix threshold
       = Ok results
    /\ forall q,
         is_Some (matches !! q)
         <-> exists r, r ∈ results /\ SemanticMatcher.BatchResult.query r = q.
Proof.
  intros Hq Hc Hk.
  assert (Hn : (0 < length candidates)%nat)
    by (destruct candidates; [contradiction | simpl; lia]).
  assert (Htexts : SemanticMatcher.idiom_texts (SemanticMatcher.Texts queries)
                   = Ok queries)
    by (destruct queries; [contradiction | reflexivity]).
  unfold SemanticMatcher.find_similar_mwes. rewrite Htexts.
  cbn [mbind result_mbind result_bind].
  destruct (matches_loop_filed candidates similarity_matrix threshold top_k
              (enumerate queries) ∅) as (matches & -> & _ & Hfiled & Hfrom).
  exists matches. eexists. split; [reflexivity |].
  split; [apply batch_match_eq; assumption |].
  intros q. split.
  - intros [l Hl]. destruct (Hfrom q l Hl) as [H | (i & Hi & Hnil & Hl')].
    { rewrite lookup_empty in H. discriminate H. }
    destruct l as [| q0 l0]; [contradiction |].
    assert (Hq0 : q0 ∈ ranked_candidates candidates similarity_matrix top_k i
                        ≫= kept_pair candidates threshold)
      by (rewrite Hl'; apply list_elem_of_here).
    apply elem_of_matched in Hq0 as (j & Hj & Hv & Hle). rewrite Hv in Hle.
    destruct (best_index_spec (similarity_matrix i) (length candidates) Hn)
      as (_ & _ & Hmax & _).
    exists (batch_record candidates similarity_matrix (i, q)).
    split; [| reflexivity].
    apply list_elem_of_bind. exists (i, q). split; [| exact Hi].
    apply elem_of_batch_kept. split; [reflexivity |].
    eapply Qle_trans; [exact Hle | apply Hmax, Hj].
  - intros (r & Hr & <-).
    apply list_elem_of_bind in Hr as ([i q] & Hr & Hi).
    apply elem_of_batch_kept in Hr as [-> Hle].
    destruct (best_index_spec (similarity_matrix i) (length candidates) Hn)
      as (_ & Hb & _).
    destruct (matched_head_is_maximum candidates similarity_matrix threshold
                top_k i _ Hk Hb Hle) as (q0 & rest & Hq0 & _).
    eapply Hfiled; [exact Hi | exact Hq0].
Qed.

Lemma find_similar_mwes_files_what_batch_match_returns_witness :
  exists matches results,
    SemanticMatcher.find_similar_mwes ["romper el hielo"; "estirar la pata"]%string
      (fun i j => if (i =? j)%nat then 0.9 else 0.2) 0.6 5
      (SemanticMatcher.Texts ["break the ice"; "kick the bucket"]%string)
    = Ok matches
    /\ SemanticMatcher.batch_match ["break the ice"; "kick the bucket"]%string
         ["romper el hielo"; "estirar la pata"]%string
         (fun i j => if (i =? j)%nat then 0.9 else 0.2) 0.6 = Ok results.
Proof.
  destruct (find_similar_mwes_files_what_batch_match_returns
              ["break the ice"; "kick the bucket"]%string
              ["romper el hielo"; "estirar la pata"]%string
              (fun i j => if (i =? j)%nat then 0.9 else 0.2) 0.6 5)
    as (matches & results & Hm & Hr & _); [discriminate | discriminate | lia |].
  exists matches, results. split; [exact Hm | exact Hr].
Defined.

(** ** The score statistics of the English-Spanish matching *)

Lemma score_buckets_partition (scores : list Q) :
  (TestCrossLingualMatching.count_high scores
   + TestCrossLingualMatching.count_medium scores
   + TestCrossLingualMatching.count_low scores)%nat = length scores.
Proof.
  unfold TestCrossLingualMatching.count_high, TestCrossLingualMatching.count_medium,
    TestCrossLingualMatching.count_low.
  induction scores as [| s scores IH]; [reflexivity |].
  rewrite !filter_cons.
  destruct (Qgeb s 0.7) eqn:H7; destruct (Qgeb s 0.6) eqn:H6;
    destruct (Qgtb 0.7 s) eqn:G7; destruct (Qgtb 0.6 s) eqn:G6;
    try apply Qgeb_le in H7; try apply Qgeb_lt in H7;
    try apply Qgeb_le in H6; try apply Qgeb_lt in H6;
    try apply Qgtb_lt in G7; try apply Qgtb_le in G7;
    try apply Qgtb_lt in G6; try apply Qgtb_le in G6;
    try (exfalso; lra);
    repeat case_decide; try discriminate; try congruence;
    cbn [length andb] in *; lia.
Qed.

(** With at least one English idiom the statistics of the
    English-Spanish matching never raise. Without any score the score
    block is skipped; otherwise the printed minimum and maximum bound
    every score, every score falls in exactly one of the three buckets,
    and each of the three percentages lies between 0 and 100. *)
Theorem matching_statistics_partition_scores
    (n_english n_matches : nat)
    (match_list : list TestCrossLingualMatching.match_entry) :
  (0 < n_english)%nat ->
  exists coverage metrics,
    TestCrossLingualMatching.statistics n_english n_matches match_list
    = Ok (coverage, metrics)
    /\ (TestCrossLingualMatching.scores_of match_list = [] -> metrics = None)
    /\ (TestCrossLingualMatching.scores_of match_list <> [] ->
        exists m,
          metrics = Some m
          /\ (forall s, s ∈ TestCrossLingualMatching.scores_of match_list ->
                TestCrossLingualMatching.sm_min m <= s
                /\ s <= TestCrossLingualMatching.sm_max m)
          /\ ((TestCrossLingualMatching.sm_high m).1
              + (TestCrossLingualMatching.sm_medium m).1
              + (TestCrossLingualMatching.sm_low m).1)%nat
             = length (TestCrossLingualMatching.scores_of match_list)
          /\ 0 <= (TestCrossLingualMatching.sm_high m).2 <= 100
          /\ 0 <= (TestCrossLingualMatching.sm_medium m).2 <= 100
          /\ 0 <= (TestCrossLingualMatching.sm_low m).2 <= 100).
Proof.
  intros Hn. unfold TestCrossLingualMatching.statistics.
  rewrite (py_truediv_nonzero n_matches n_english Hn).
  cbn [mbind result_mbind result_bind].
  remember (TestCrossLingualMatching.scores_of match_list) as all_scores eqn:Hs.
  destruct all_scores as [| s0 scores'].
  - eexists. eexists. split; [reflexivity |].
    split; [reflexivity | intros H; contradiction].
  - set (scores := s0 :: scores').
    assert (Hne : scores <> []) by discriminate.
    assert (Hlen : (0 < length scores)%nat) by (simpl; lia).
    assert (Hmean : py_truediv_Q (Qsum scores) (length scores)
                    = Ok (Qsum scores / Qnat (length scores))).
    { destruct (length scores); [lia | reflexivity]. }
    rewrite Hmean. cbn [mbind result_mbind result_bind].
    destruct (np_max_ok scores Hne) as (mx & Hmx & Hmax).
    destruct (np_min_ok scores Hne) as (mn & Hmn & Hmin).
    change (py_max scores) with (np_max scores).
    change (py_min scores) with (np_min scores).
    rewrite Hmx, Hmn. cbn [mbind result_mbind result_bind].
    rewrite !py_truediv_nonzero by exact Hlen.
    cbn [mbind result_mbind result_bind].
    eexists. eexists. split; [reflexivity |].
    split; [intros H; discriminate H |]. intros _.
    eexists. split; [reflexivity |].
    cbn [TestCrossLingualMatching.sm_min TestCrossLingualMatching.sm_mean
           TestCrossLingualMatching.sm_max TestCrossLingualMatching.sm_high
           TestCrossLingualMatching.sm_medium TestCrossLingualMatching.sm_low
           fst snd].
    pose proof (score_buckets_partition scores) as Hpart.
    split; [intros s Hin; split; [apply Hmin, Hin | apply Hmax, Hin] |].
    split; [exact Hpart |].
    repeat split; apply percentage_bounds; try exact Hlen; lia.
Qed.

Lemma matching_statistics_partition_scores_witness :
  exists coverage metrics,
    TestCrossLingualMatching.statistics 2 1
      [("break the ice"%string,
        [("romper el hielo"%string, 0.82); ("estirar la pata"%string, 0.55)],
        0.82)]
    = Ok (coverage, metrics).
Proof.
  destruct (matching_statistics_partition_scores 2 1
              [("break the ice"%string,
                [("romper el hielo"%string, 0.82); ("estirar la pata"%string, 0.55)],
                0.82)]) as (coverage & metrics & H & _); [lia |].
  exists coverage, metrics. exact H.
Defined.
